(** * Slack export file downloader: a shallow embedding of
      [Slack_export_parser.py] and the properties of its three components.

    - [PyStr]: the Python [str] operations the script relies on.
    - [Extractor]: [extract_urls_from_json].
    - [Namer]: [process_url_file].
    - [Executor]: [download_files_from_urls], as a state machine whose
      steps are the evaluations of the two loop tests with the loop bodies.
    - [Main]: [main], its two phases over the directory of the work file.

    What the model takes from outside the script:
    - text is a [string], one [ascii] per code point (code points below
      256), and a file is its decoded content, [None] when it does not
      exist; line ends and paths are the POSIX ones;
    - [json.load] is given by its result, [urllib.parse.urlparse(url).path]
      by a function [url_path] (the theorems hold for every such function,
      the examples use [urlparse_path]), the built-in [hash] by a function;
    - one pass through the [try] block of the attempt loop either fetches
      and saves the file or raises, as a function [net] of the number of
      requests made before and of the URL tells;
    - opening and writing the work file do not raise;
    - a state of a run is taken at a test of one of the two loops; what
      the work file holds between two tests, while it is rewritten, is
      given apart, in [Rewrites];
    - [--url_file] and [--download_folder] are plain names in the
      directory of the work file. *)

From Stdlib Require Import ZArith Lia Ascii.
From stdpp Require Import base strings list gmap pretty.

(** ** Python string operations *)
Module PyStr.

Definition code (c : ascii) : nat := nat_of_ascii c.

(** [str.isspace] on one character, which is also what [str.strip()]
    removes: TAB..CR, FS..US, space, NEL and NBSP. *)
Definition is_space (c : ascii) : bool :=
  let n := code c in
  ((9 <=? n) && (n <=? 13)) || ((28 <=? n) && (n <=? 32))
  || (n =? 133) || (n =? 160).

(** [str.isalnum] on one character: ASCII digits and letters, and the
    Latin-1 letters, superscript digits and vulgar fractions. *)
Definition is_alnum (c : ascii) : bool :=
  let n := code c in
  ((48 <=? n) && (n <=? 57)) || ((65 <=? n) && (n <=? 90))
  || ((97 <=? n) && (n <=? 122))
  || (n =? 170) || (n =? 178) || (n =? 179) || (n =? 181) || (n =? 185)
  || (n =? 186) || ((188 <=? n) && (n <=? 190))
  || ((192 <=? n) && (n <=? 214)) || ((216 <=? n) && (n <=? 246))
  || ((248 <=? n) && (n <=? 255)).

Definition is_empty (s : string) : bool :=
  match s with EmptyString => true | String _ _ => false end.

(** [s.lstrip()], [s.rstrip()], [s.strip()] *)
Fixpoint lstrip (s : string) : string :=
  match s with
  | EmptyString => EmptyString
  | String c r => if is_space c then lstrip r else s
  end.

Fixpoint rstrip (s : string) : string :=
  match s with
  | EmptyString => EmptyString
  | String c r =>
      let r' := rstrip r in
      if is_space c && is_empty r' then EmptyString else String c r'
  end.

Definition strip (s : string) : string := rstrip (lstrip s).

(** [s.split(sep)] for a one-character separator: never the empty list. *)
Fixpoint split (sep : ascii) (s : string) : list string :=
  match s with
  | EmptyString => [EmptyString]
  | String c r =>
      if Ascii.eqb c sep then EmptyString :: split sep r
      else match split sep r with
           | [] => [String c EmptyString]
           | seg :: segs => String c seg :: segs
           end
  end.

(** [sep in s] for a one-character [sep] *)
Fixpoint contains (sep : ascii) (s : string) : bool :=
  match s with
  | EmptyString => false
  | String c r => Ascii.eqb c sep || contains sep r
  end.

(** [s.rsplit(sep, 1)] when [sep in s]: the text before and after the last
    occurrence of [sep]; [None] when [sep] does not occur. *)
Fixpoint rsplit1 (sep : ascii) (s : string) : option (string * string) :=
  match s with
  | EmptyString => None
  | String c r =>
      match rsplit1 sep r with
      | Some (b, e) => Some (String c b, e)
      | None => if Ascii.eqb c sep then Some (EmptyString, r) else None
      end
  end.

(** [s.startswith(p)] *)
Fixpoint startswith (p s : string) : bool :=
  match p, s with
  | EmptyString, _ => true
  | String a p', String b s' => Ascii.eqb a b && startswith p' s'
  | String _ _, EmptyString => false
  end.

(** The characters of [s] that satisfy [keep], joined. *)
Fixpoint keep_chars (keep : ascii -> bool) (s : string) : string :=
  match s with
  | EmptyString => EmptyString
  | String c r =>
      if keep c then String c (keep_chars keep r) else keep_chars keep r
  end.

(** [all(p(c) for c in s)] *)
Fixpoint all_chars (p : ascii → bool) (s : string) : bool :=
  match s with
  | EmptyString => true
  | String c r => p c && all_chars p r
  end.

(** [os.path.basename] (POSIX): the text after the last ["/"]. *)
Definition basename (p : string) : string :=
  default EmptyString (last (split "/"%char p)).

(** Reading a text file opened with universal newlines: ["\r\n"] and a lone
    ["\r"] are read as ["\n"]. *)
Definition LF : ascii := "010"%char.
Definition CR : ascii := "013"%char.

Fixpoint translate_newlines (s : string) : string :=
  match s with
  | EmptyString => EmptyString
  | String c r =>
      if Ascii.eqb c CR then
        match r with
        | String d r' =>
            if Ascii.eqb d LF then String LF (translate_newlines r')
            else String LF (translate_newlines r)
        | EmptyString => String LF EmptyString
        end
      else String c (translate_newlines r)
  end.

(** [for line in f]: the lines of the text, each with its final ["\n"]
    (the last one may lack it). *)
Fixpoint lines_keepends (s : string) : list string :=
  match s with
  | EmptyString => []
  | String c r =>
      if Ascii.eqb c LF then String c EmptyString :: lines_keepends r
      else match lines_keepends r with
           | [] => [String c EmptyString]
           | l :: ls => String c l :: ls
           end
  end.

Definition readlines (content : string) : list string :=
  lines_keepends (translate_newlines content).

(** [for url in urls: f.write(f"{url}\n")]: the text written. *)
Definition write_lines (urls : list string) : string :=
  foldr (λ url text, url +:+ String LF text) EmptyString urls.

(** Line breaks, as a file read with universal newlines has them. *)
Definition is_newline (c : ascii) : bool := Ascii.eqb c LF || Ascii.eqb c CR.
Definition not_newline (c : ascii) : bool := negb (is_newline c).
Definition not_cr (c : ascii) : bool := negb (Ascii.eqb c CR).

(** A line as [read_urls] returns it: not empty, nothing to strip, no line
    break inside. *)
Record clean (u : string) : Prop := {
  clean_nonempty : u ≠ EmptyString;
  clean_lstrip : lstrip u = u;
  clean_rstrip : rstrip u = u;
  clean_one_line : all_chars not_newline u = true
}.

(** A line is a text without line break, with or without a final ["\n"]. *)
Definition line_of (line body : string) : Prop :=
  all_chars not_newline body = true ∧
  (line = body ∨ line = body +:+ String LF EmptyString).

End PyStr.

(** ** [extract_urls_from_json] *)
Module Extractor.
Import PyStr.

#[local] Set Warnings "-register-all".
(** A value as [json.load] returns it; numbers are kept as their literal. *)
Inductive json :=
| JNull
| JBool (b : bool)
| JNumber (literal : string)
| JString (s : string)
| JArray (items : list json)
| JObject (members : gmap string json).

(** What opening and parsing the input file does. *)
Inductive load_result :=
| Loaded (data : json)
| JSONDecodeError
| FileNotFoundError
| OtherException (e : string).

Inductive message :=
| InvalidJSON (file_path : string)
| NotFound (file_path : string)
| ErrorProcessing (file_path e : string).

Record extraction := {
  returned : nat;                 (* the value returned *)
  output_file : option string;    (* content of the work file, if it exists *)
  printed : list message
}.

Section Extract.
(** [str(v)] of a value that is not a string, as an f-string formats it. *)
Variable str_of : json → string.

Definition format_url (url : json) : string :=
  match url with JString s => s | _ => str_of url end.

Definition file_info_urls (file_info : json) : list json :=
  match file_info with
  | JObject members =>
      match members !! "url_private_download" with
      | Some url => [url]
      | None => []
      end
  | _ => []
  end.

Definition item_urls (item : json) : list json :=
  match item with
  | JObject members =>
      match members !! "files" with
      | Some (JArray files) => files ≫= file_info_urls
      | _ => []
      end
  | _ => []
  end.

Definition extracted_urls (data : json) : list json :=
  let items := match data with JArray items => items | _ => [data] end in
  items ≫= item_urls.

(** [open(output_file, "a")] followed by the writes. *)
Definition append_lines (file : option string) (urls : list string)
  : option string :=
  Some (default EmptyString file +:+ write_lines urls).

Definition extract_urls_from_json (file_path : string) (input : load_result)
    (file : option string) : extraction :=
  match input with
  | JSONDecodeError =>
      {| returned := 0; output_file := file;
         printed := [InvalidJSON file_path] |}
  | FileNotFoundError =>
      {| returned := 0; output_file := file;
         printed := [NotFound file_path] |}
  | OtherException e =>
      {| returned := 0; output_file := file;
         printed := [ErrorProcessing file_path e] |}
  | Loaded data =>
      let extracted := extracted_urls data in
      {| returned := length extracted;
         output_file :=
           match extracted with
           | [] => file
           | _ :: _ => append_lines file (format_url <$> extracted)
           end;
         printed := [] |}
  end.

End Extract.
End Extractor.

(** ** [process_url_file] *)
Module Namer.
Import PyStr.

Record url_info := {
  url : string;
  original_filename : string;
  base_name : string;
  extension : string;
  id : string
}.

Record url_data := {
  unique_urls : list string;
  filename_mapping : gmap string string
}.

(** [[line.strip() for line in f if line.strip()]] *)
Definition read_urls (content : string) : list string :=
  strip <$> filter (λ line, strip line ≠ EmptyString) (readlines content).

(** Lines 102-108: remove duplicates while preserving order. *)
Definition dedupe_step (acc : list string * gset string) (url : string)
  : list string * gset string :=
  let '(unique_urls, seen) := acc in
  if decide (url ∈ seen) then acc
  else (unique_urls ++ [url], seen ∪ {[url]}).

Definition remove_duplicates (urls : list string) : list string :=
  (foldl dedupe_step ([], ∅) urls).1.

(** [[A-Z0-9]] *)
Definition is_id_char (c : ascii) : bool :=
  let n := code c in
  ((65 <=? n) && (n <=? 90)) || ((48 <=? n) && (n <=? 57)).

(** The longest prefix of characters satisfying [p], and what follows. *)
Fixpoint span (p : ascii → bool) (s : string) : string * string :=
  match s with
  | EmptyString => (EmptyString, EmptyString)
  | String c r =>
      if p c then let '(run, rest) := span p r in (String c run, rest)
      else (EmptyString, s)
  end.

(** A match of [/([A-Z0-9]+)-([A-Z0-9]+)/download/] starting at the first
    character of [s]: its group 2.  Neither ["-"] nor ["/"] is in the
    class, so each [+] can only match a whole run. *)
Definition match_id_at (s : string) : option string :=
  match s with
  | String c s1 =>
      if Ascii.eqb c "/" then
        let '(group1, s2) := span is_id_char s1 in
        if is_empty group1 then None else
        match s2 with
        | String d s3 =>
            if Ascii.eqb d "-" then
              let '(group2, s4) := span is_id_char s3 in
              if is_empty group2 then None
              else if startswith "/download/" s4 then Some group2
              else None
            else None
        | EmptyString => None
        end
      else None
  | EmptyString => None
  end.

(** [re.search(id_pattern, path)]: group 2 of the leftmost match. *)
Fixpoint search_id (path : string) : option string :=
  match match_id_at path with
  | Some group2 => Some group2
  | None =>
      match path with
      | String _ r => search_id r
      | EmptyString => None
      end
  end.

Definition count_of (counter : gmap string nat) (name : string) : nat :=
  default 0 (counter !! name).

(** [Counter(names)] *)
Definition Counter (names : list string) : gmap string nat :=
  foldl (λ counter name, <[name := S (count_of counter name)]> counter)
        ∅ names.

(** Lines 168-171 *)
Definition unique_filename (filename_counter : gmap string nat)
    (info : url_info) : string :=
  if decide (1 < count_of filename_counter (original_filename info))
  then base_name info +:+ id info +:+ extension info
  else original_filename info.

Section UrlLib.
(** [urllib.parse.urlparse(url).path] *)
Variable url_path : string → string.

(** Lines 116-131 *)
Definition filename_of (url : string) : string :=
  let path_parts := split "/" (url_path url) in
  match list_find (λ part, part = "download") path_parts with
  | Some (download_index, _) =>
      if decide (download_index < length path_parts - 1)
      then default EmptyString (path_parts !! (download_index + 1))
      else "download.bin"
  | None =>
      let filename := basename (url_path url) in
      if is_empty filename then "file.bin" else filename
  end.

(** Lines 135-140 *)
Definition file_id_of (url : string) : string :=
  match search_id (url_path url) with
  | Some group2 => "-" +:+ group2
  | None => EmptyString
  end.

(** Lines 143-159 *)
Definition info_of (url : string) : url_info :=
  let filename := filename_of url in
  let filename_parts :=
    if contains "." filename
    then default (filename, EmptyString) (rsplit1 "." filename)
    else (filename, EmptyString) in
  {| url := url;
     original_filename := filename;
     base_name := filename_parts.1;
     extension :=
       if is_empty filename_parts.2 then EmptyString
       else "." +:+ filename_parts.2;
     id := file_id_of url |}.

(** Lines 161-173 *)
Definition make_mapping (infos : list url_info) : gmap string string :=
  let filename_counter := Counter (original_filename <$> infos) in
  foldl (λ mapping info,
           <[url info := unique_filename filename_counter info]> mapping)
        ∅ infos.

(** The value returned and the work file afterwards. *)
Definition process_url_file (urls_file : option string)
  : url_data * option string :=
  match urls_file with
  | None => ({| unique_urls := []; filename_mapping := ∅ |}, None)
  | Some content =>
      let urls := read_urls content in
      let unique := remove_duplicates urls in
      ({| unique_urls := unique;
          filename_mapping := make_mapping (info_of <$> unique) |},
       Some (write_lines unique))
  end.

End UrlLib.

(** The path component as [urlsplit] and [urlparse] compute it from the
    generic syntax [scheme://netloc/path;params?query#fragment], for the
    examples. *)
Definition is_scheme_char (c : ascii) : bool :=
  let n := code c in
  ((97 <=? n) && (n <=? 122)) || ((65 <=? n) && (n <=? 90))
  || ((48 <=? n) && (n <=? 57)) || (n =? 43) || (n =? 45) || (n =? 46).

Definition is_ascii_alpha (c : ascii) : bool :=
  let n := code c in
  ((97 <=? n) && (n <=? 122)) || ((65 <=? n) && (n <=? 90)).

(** The text before and after the first character satisfying [p]. *)
Fixpoint break (p : ascii → bool) (s : string) : string * option string :=
  match s with
  | EmptyString => (EmptyString, None)
  | String c r =>
      if p c then (EmptyString, Some r)
      else let '(b, a) := break p r in (String c b, a)
  end.

Definition lower (c : ascii) : ascii :=
  let n := code c in
  if (65 <=? n) && (n <=? 90) then ascii_of_nat (n + 32) else c.

Fixpoint map_chars (f : ascii → ascii) (s : string) : string :=
  match s with
  | EmptyString => EmptyString
  | String c r => String (f c) (map_chars f r)
  end.

Definition uses_params : list string :=
  [EmptyString; "ftp"; "hdl"; "prospero"; "http"; "imap"; "https"; "shttp";
   "rtsp"; "rtspu"; "sip"; "sips"; "mms"; "sftp"; "tel"].

Definition split_scheme (url : string) : string * string :=
  match break (λ c, Ascii.eqb c ":") url with
  | (String c0 s, Some rest) =>
      if is_ascii_alpha c0 && all_chars is_scheme_char (String c0 s)
      then (map_chars lower (String c0 s), rest)
      else (EmptyString, url)
  | _ => (EmptyString, url)
  end.

Definition drop_netloc (url : string) : string :=
  match url with
  | String a (String b r) =>
      if Ascii.eqb a "/" && Ascii.eqb b "/" then
        let stop c := Ascii.eqb c "/" || Ascii.eqb c "?" || Ascii.eqb c "#" in
        (span (λ c, negb (stop c)) r).2
      else url
  | _ => url
  end.

Definition split_params (url : string) : string :=
  match rsplit1 "/" url with
  | Some (dir, name) =>
      match break (λ c, Ascii.eqb c ";") name with
      | (name', Some _) => dir +:+ "/" +:+ name'
      | (_, None) => url
      end
  | None => (break (λ c, Ascii.eqb c ";") url).1
  end.

(** [urlsplit] first removes the C0 control characters and spaces at the
    beginning of the URL, and the tabs, carriage returns and line feeds
    anywhere in it. *)
Definition is_c0_or_space (c : ascii) : bool := code c <=? 32.

Definition is_unsafe (c : ascii) : bool :=
  (code c =? 9) || (code c =? 10) || (code c =? 13).

Fixpoint lstrip_chars (p : ascii → bool) (s : string) : string :=
  match s with
  | EmptyString => EmptyString
  | String c r => if p c then lstrip_chars p r else s
  end.

Definition urlparse_path (url : string) : string :=
  let url :=
    keep_chars (λ c, negb (is_unsafe c)) (lstrip_chars is_c0_or_space url) in
  let '(scheme, rest) := split_scheme url in
  let rest := drop_netloc rest in
  let rest := (break (λ c, Ascii.eqb c "#") rest).1 in
  let rest := (break (λ c, Ascii.eqb c "?") rest).1 in
  if bool_decide (scheme ∈ uses_params) && contains ";" rest
  then split_params rest else rest.

End Namer.

(** ** [download_files_from_urls] *)
Module Executor.
Import PyStr.

(** The terminal state of one URL. *)
Inductive download_outcome := Skipped | Succeeded | FailedPermanently.

#[global] Instance download_outcome_eq_dec : EqDecision download_outcome.
Proof. solve_decision. Defined.

(** What one pass through the [try] block (lines 258-283) does: the file is
    fetched and saved, or an exception is raised, before or after
    [open(file_path, "wb")] created the file. *)
Inductive response := Downloaded | Failed (file_created : bool).

(** What a run does, in order.  [Outcome] marks the three places where
    [remaining_urls.pop(0)] is executed. *)
Inductive event :=
| RandomDelay
| Get (url : string)
| Sleep (wait_time : nat)
| Outcome (url : string) (o : download_outcome).

(** Where the execution stands: at the test of the outer loop (line 226),
    at the test of the attempt loop (line 257), or after the outer loop. *)
Inductive control :=
| LoopHead
| Attempting (current_url file_name : string)
| Exited.

Record state := {
  remaining_urls : list string;
  success_count : nat;
  fail_count : nat;
  retry_count : nat;
  skipped : nat;
  skipped_count : nat;
  download_success : bool;
  urls_file : option string;     (* content of the work file *)
  download_dir : gset string;    (* names of the entries of download_dir *)
  requests : nat;                (* number of requests issued so far *)
  trace : list event;
  position : control
}.

Definition max_retries : nat := 3.

Definition failed_prefix : string := "[FAILED] ".


(** [Path(download_dir / file_name).exists()], the directory existing: the
    empty name and ["."] denote the directory itself, [".."] its parent. *)
Definition path_exists (dir : gset string) (file_name : string) : bool :=
  bool_decide (file_name ∈ [EmptyString; "."; ".."])
  || bool_decide (file_name ∈ dir).

(** Line 239 *)
Definition clean_filename (file_name : string) : string :=
  keep_chars
    (λ c, is_alnum c || bool_decide (c ∈ ["."; "_"; "-"; " "]%char))
    file_name.

(** The test of the attempt loop, line 257. *)
Definition retrying (s : state) : bool :=
  (retry_count s <=? max_retries) && negb (download_success s).

(** What a trace shows: the URLs requested, the waits between attempts and
    the terminal outcomes, each in order. *)
Definition gets (t : list event) : list string :=
  omap (λ e, match e with Get u => Some u | _ => None end) t.

Definition sleeps (t : list event) : list nat :=
  omap (λ e, match e with Sleep w => Some w | _ => None end) t.

Definition outcomes (t : list event) : list (string * download_outcome) :=
  omap (λ e, match e with Outcome u o => Some (u, o) | _ => None end) t.

Definition count (o : download_outcome) (t : list event) : nat :=
  length (filter (λ p, p.2 = o) (outcomes t)).

(** A line of the work file that is not a remaining URL: a URL skipped, or
    a URL given up, tagged. *)
Definition kept_line (s : state) (line : string) : Prop :=
  (line, Skipped) ∈ outcomes (trace s) ∨
  ∃ v, line = failed_prefix +:+ v ∧
       (v, FailedPermanently) ∈ outcomes (trace s).

(** The events of an attempt loop for [url]: failed attempts followed by
    the given waits, then the attempt that ends it with outcome [o]. *)
Definition attempt_events (url : string) (waits : list nat)
    (o : download_outcome) : list event :=
  (waits ≫= λ wait_time, [RandomDelay; Get url; Sleep wait_time])
  ++ [RandomDelay; Get url; Outcome url o].

Section Run.
Variable url_path : string → string.  (* urllib.parse.urlparse(url).path *)
Variable hash : string → Z.           (* the built-in hash of a str *)
(** The answer to the request numbered [n], made for [url]. *)
Variable net : nat → string → response.
Variable filename_mapping : gmap string string.

(** Lines 232-236 *)
Definition fallback_name (current_url : string) : string :=
  let file_name := basename (url_path current_url) in
  if is_empty file_name || bool_decide (file_name = "download")
  then "download_" +:+ pretty (hash current_url `mod` 10000)%Z +:+ ".bin"
  else file_name.

(** Lines 230-239 *)
Definition target_name (current_url : string) : string :=
  let file_name :=
    match filename_mapping !! current_url with
    | Some file_name =>
        if is_empty file_name then fallback_name current_url else file_name
    | None => fallback_name current_url
    end in
  clean_filename file_name.

(** Lines 227-255: the outer loop body up to the attempt loop. *)
Definition pre_check (current_url : string) (s : state) : state :=
  let file_name := target_name current_url in
  if path_exists (download_dir s) file_name then
    {| remaining_urls := tail (remaining_urls s);
       success_count := success_count s;
       fail_count := fail_count s;
       retry_count := retry_count s;
       skipped := skipped s + 1;
       skipped_count := skipped_count s + 1;
       download_success := true;
       urls_file := urls_file s;
       download_dir := download_dir s;
       requests := requests s;
       trace := trace s ++ [Outcome current_url Skipped];
       position := Attempting current_url file_name |}
  else
    {| remaining_urls := remaining_urls s;
       success_count := success_count s;
       fail_count := fail_count s;
       retry_count := 0;
       skipped := if 0 <? skipped s then 0 else skipped s;
       skipped_count := skipped_count s;
       download_success := false;
       urls_file := urls_file s;
       download_dir := download_dir s;
       requests := requests s;
       trace := trace s;
       position := Attempting current_url file_name |}.

(** Lines 258-312: one iteration of the attempt loop, up to the next test
    of the loop.  [urls_file] is the work file at that test; what it holds
    on the way there is [Rewrites.file_during]. *)
Definition attempt (current_url file_name : string) (s : state) : state :=
  match net (requests s) current_url with
  | Downloaded =>
      let remaining := tail (remaining_urls s) in
      {| remaining_urls := remaining;
         success_count := success_count s + 1;
         fail_count := fail_count s;
         retry_count := retry_count s;
         skipped := skipped s;
         skipped_count := skipped_count s;
         download_success := true;
         urls_file := Some (write_lines remaining);
         download_dir := download_dir s ∪ {[file_name]};
         requests := S (requests s);
         trace := trace s ++
                  [RandomDelay; Get current_url; Outcome current_url Succeeded];
         position := position s |}
  | Failed file_created =>
      let retry_count' := retry_count s + 1 in
      let dir :=
        if file_created then download_dir s ∪ {[file_name]}
        else download_dir s in
      if retry_count' <=? max_retries then
        let wait_time := if retry_count' <? max_retries then 30 else 90 in
        {| remaining_urls := remaining_urls s;
           success_count := success_count s;
           fail_count := fail_count s;
           retry_count := retry_count';
           skipped := skipped s;
           skipped_count := skipped_count s;
           download_success := download_success s;
           urls_file := urls_file s;
           download_dir := dir;
           requests := S (requests s);
           trace := trace s ++ [RandomDelay; Get current_url; Sleep wait_time];
           position := position s |}
      else
        let remaining := tail (remaining_urls s) in
        {| remaining_urls := remaining;
           success_count := success_count s;
           fail_count := fail_count s + 1;
           retry_count := retry_count';
           skipped := skipped s;
           skipped_count := skipped_count s;
           download_success := download_success s;
           urls_file :=
             Some (failed_prefix +:+ current_url +:+ String LF
                     (write_lines remaining));
           download_dir := dir;
           requests := S (requests s);
           trace := trace s ++
                    [RandomDelay; Get current_url;
                     Outcome current_url FailedPermanently];
           position := position s |}
  end.

Definition goto (c : control) (s : state) : state :=
  {| remaining_urls := remaining_urls s;
     success_count := success_count s;
     fail_count := fail_count s;
     retry_count := retry_count s;
     skipped := skipped s;
     skipped_count := skipped_count s;
     download_success := download_success s;
     urls_file := urls_file s;
     download_dir := download_dir s;
     requests := requests s;
     trace := trace s;
     position := c |}.

(** One evaluation of a loop test, with the loop body when it holds. *)
Definition step (s : state) : state :=
  match position s with
  | LoopHead =>
      match remaining_urls s with
      | [] => goto Exited s
      | current_url :: _ => pre_check current_url s
      end
  | Attempting current_url file_name =>
      if retrying s then attempt current_url file_name s
      else goto LoopHead s
  | Exited => s
  end.

(** Lines 216-225 *)
Definition initial (unique_urls : list string) (file : option string)
    (dir : gset string) : state :=
  {| remaining_urls := unique_urls;
     success_count := 0;
     fail_count := 0;
     retry_count := 0;
     skipped := 0;
     skipped_count := 0;
     download_success := false;
     urls_file := file;
     download_dir := dir;
     requests := 0;
     trace := [];
     position := LoopHead |}.

End Run.

(** What holds at every point of a run over the unique URLs [urls], started
    with the work file [file0] and the download directory holding [dir0]. *)
Section Invariant.
Variable url_path : string → string.
Variable hash : string → Z.
Variable mapping : gmap string string.
Variable urls : list string.
Variable file0 : option string.
Variable dir0 : gset string.

Record inv (s : state) : Prop := {
  inv_urls : (outcomes (trace s)).*1 ++ remaining_urls s = urls;
  inv_dir : dir0 ⊆ download_dir s;
  inv_success : success_count s = count Succeeded (trace s);
  inv_fail : fail_count s = count FailedPermanently (trace s);
  inv_skipped : skipped_count s = count Skipped (trace s);
  inv_gets :
    ∀ u, u ∈ gets (trace s) →
         u ∈ urls ∧
         path_exists dir0 (target_name url_path hash mapping u) = false;
  inv_attempted :
    ∀ u o, (u, o) ∈ outcomes (trace s) → o ≠ Skipped →
           path_exists dir0 (target_name url_path hash mapping u) = false;
  inv_current :
    ∀ u name, position s = Attempting u name → retrying s = true →
              (∃ rest, remaining_urls s = u :: rest) ∧
              name = target_name url_path hash mapping u ∧
              path_exists dir0 name = false;
  inv_file :
    match file0 with
    | None => urls_file s = None ∧ urls = []
    | Some _ =>
        ∃ kept,
          urls_file s = Some (write_lines (kept ++ remaining_urls s)) ∧
          Forall (kept_line s) kept
    end
}.

End Invariant.

Section Download.
Variable url_path : string → string.
Variable hash : string → Z.
Variable net : nat → string → response.

(** The state in which [download_files_from_urls] starts its loop, given
    the work file and the content of the download directory. *)
Definition start (file : option string) (dir : gset string) : state :=
  let '(url_data, file') := Namer.process_url_file url_path file in
  initial (Namer.unique_urls url_data) file' dir.

Definition step_of (file : option string) : state → state :=
  step url_path hash net
       (Namer.filename_mapping (Namer.process_url_file url_path file).1).

(** Every URL takes at most six steps, and leaving the loop takes one. *)
Definition enough (file : option string) : nat :=
  6 * length (Namer.unique_urls (Namer.process_url_file url_path file).1) + 1.

(** The state in which [download_files_from_urls] returns. *)
Definition download_files_from_urls (file : option string)
    (dir : gset string) : state :=
  Nat.iter (enough file) (step_of file) (start file dir).

(** Line 320 *)
Definition returned (s : state) : nat * nat :=
  (success_count s, fail_count s).

(** Where the run over [file] and [dir] stands after [n] steps. *)
Definition after (n : nat) (file : option string) (dir : gset string)
  : state :=
  Nat.iter n (step_of file) (start file dir).

Definition urls_of (file : option string) : list string :=
  Namer.unique_urls (Namer.process_url_file url_path file).1.

Definition mapping_of (file : option string) : gmap string string :=
  Namer.filename_mapping (Namer.process_url_file url_path file).1.

Definition run_inv (file : option string) (dir : gset string)
  : state → Prop :=
  inv url_path hash (mapping_of file) (urls_of file) file dir.

End Download.
End Executor.

(** ** The work file while it is rewritten *)
Module Rewrites.
Import PyStr Executor.

(** What the work file can hold while [with open(urls_path, "w") as f]
    writes [text] (lines 281-283 and 307-312): [open] empties the file and
    the writes bring it, through a buffer, to [text]; at any moment it
    holds a beginning of [text], nothing at first. *)
Definition partly_written (text content : string) : Prop :=
  ∃ rest, text = content +:+ rest.

Section Run.
Variable net : nat → string → response.

(** The text written to the work file between the loop test at [s] and the
    next one, when the file is rewritten there: by the attempt that
    succeeds, and by the one that exhausts the retries. *)
Definition rewritten (s : state) : option string :=
  match position s with
  | Attempting current_url _ =>
      if retrying s then
        match net (requests s) current_url with
        | Downloaded => Some (write_lines (tail (remaining_urls s)))
        | Failed _ =>
            if retry_count s + 1 <=? max_retries then None
            else Some (failed_prefix +:+ current_url +:+ String LF
                         (write_lines (tail (remaining_urls s))))
        end
      else None
  | _ => None
  end.

(** What the work file can hold from the loop test at [s] up to the next
    one: what it holds at [s], and then, if it is rewritten, a beginning
    of the text written. *)
Definition file_during (s : state) (file : option string) : Prop :=
  file = urls_file s ∨
  ∃ text content,
    rewritten s = Some text ∧ partly_written text content ∧
    file = Some content.

End Run.
End Rewrites.

(** ** Inputs of the concrete runs *)
Module Scenario.
Import PyStr Executor.

Definition u1 : string := "https://x/T1-F1/download/report.pdf".
Definition u2 : string := "https://x/T2-F2/download/report.pdf".
(** The file of [u1] again, with an access token in the query. *)
Definition u3 : string := "https://x/T1-F1/download/report.pdf?t=1".

(** The record of the specification's scenario. *)
Definition two_files : Extractor.json :=
  Extractor.JObject {[ "files" := Extractor.JArray [
    Extractor.JObject
      {[ "url_private_download" := Extractor.JString u1 ]};
    Extractor.JObject
      {[ "url_private_download" := Extractor.JString u2 ]} ] ]}.

(** The work file after extraction from it, and one with the same id token
    twice. *)
Definition two_reports : string := write_lines [u1; u2].
Definition same_token : string := write_lines [u1; u3].

Definition no_hash : string → Z := λ _, 0%Z.
Definition always_failing : nat → string → response := λ _ _, Failed false.
Definition always_ok : nat → string → response := λ _ _, Downloaded.
(** The first four requests fail, the others succeed. *)
Definition four_failures : nat → string → response :=
  λ n _, if n <? 4 then Failed false else Downloaded.

End Scenario.

(** ** What a run leaves behind *)
Module Runs.
Import PyStr Executor.

(** The events of one URL in a finished run: skipped; or downloaded at the
    request that follows [n] failed ones; or given up after four. *)
Inductive url_events (u : string) : list event → Prop :=
| events_skipped : url_events u [Outcome u Skipped]
| events_downloaded (n : nat) :
    n ≤ max_retries →
    url_events u (attempt_events u (take n [30; 30; 90]) Succeeded)
| events_failed :
    url_events u (attempt_events u [30; 30; 90] FailedPermanently).

(** The lines of the work file that precede the remaining URLs, read off
    the outcomes so far: a skip leaves the file as it is, so the URL stays;
    a download rewrites it without them; a permanent failure rewrites it
    with the tagged URL alone. *)
Definition kept_step (kept : list string) (p : string * download_outcome)
  : list string :=
  match p.2 with
  | Skipped => kept ++ [p.1]
  | Succeeded => []
  | FailedPermanently => [failed_prefix +:+ p.1]
  end.

Definition kept_after (outs : list (string * download_outcome))
  : list string :=
  foldl kept_step [] outs.

(** The target of every URL skipped or downloaded so far exists. *)
Definition on_disk (url_path : string → string) (hash : string → Z)
    (mapping : gmap string string) (s : state) : Prop :=
  ∀ u o, (u, o) ∈ outcomes (trace s) → o ≠ FailedPermanently →
         path_exists (download_dir s) (target_name url_path hash mapping u)
         = true.

(** The work file is what the outcomes so far make it. *)
(** While a URL is attempted, no URL skipped or downloaded before it has
    the name it is saved under. *)
Definition fresh_name (url_path : string → string) (hash : string → Z)
    (mapping : gmap string string) (s : state) : Prop :=
  ∀ u name, position s = Attempting u name → retrying s = true →
    ∀ v o, (v, o) ∈ outcomes (trace s) → o ≠ FailedPermanently →
           target_name url_path hash mapping v ≠ name.

(** A URL that comes after one skipped or downloaded under the same name is
    skipped. *)
Definition shared_skipped (url_path : string → string) (hash : string → Z)
    (mapping : gmap string string)
    (outs : list (string * download_outcome)) : Prop :=
  ∀ i j v o u o',
    i < j → outs !! i = Some (v, o) → outs !! j = Some (u, o') →
    o ≠ FailedPermanently →
    target_name url_path hash mapping v = target_name url_path hash mapping u →
    o' = Skipped.

Definition file_tracked (s : state) : Prop :=
  urls_file s
  = Some (write_lines (kept_after (outcomes (trace s)) ++ remaining_urls s)).

(** A URL whose file name is the parent directory. *)
Definition dots_url : string := "https://x/T1-F1/download/..".

End Runs.

(** ** File names *)
Module Names.
Import PyStr Namer.

(** A non-empty run of [[A-Z0-9]]. *)
Definition id_token (t : string) : Prop :=
  t ≠ EmptyString ∧ all_chars is_id_char t = true.

(** [path] has a match of the id pattern of line 135 whose group 2 is
    [token]. *)
Definition id_match (path token : string) : Prop :=
  ∃ before group1 after,
    id_token group1 ∧ id_token token ∧
    path = before +:+ "/" +:+ group1 +:+ "-" +:+ token
           +:+ "/download/" +:+ after.

(** The characters that line 239 keeps. *)
Definition allowed_char (c : ascii) : bool :=
  is_alnum c || bool_decide (c ∈ ["."; "_"; "-"; " "]%char).

(** A file name with two extensions. *)
Definition archive_url : string := "https://x/T1-F1/download/archive.tar.gz".

End Names.

(** ** [main] *)
Module Main.
Import PyStr Extractor Executor.

(** The arguments, lines 328-357, [path] apart. *)
Record args := {
  url_file : string;
  parse : bool;
  download : bool;
  download_folder : string
}.

Definition default_url_file : string := "extracted_urls.txt".

(** What [args.path] names: a directory, given by the paths that
    [glob("*.json")] yields in it, each with what opening and parsing it
    does; a file; or neither. *)
Inductive input :=
| Directory (json_files : list (string * load_result))
| File (loaded : load_result)
| Neither.

(** The directory of the work file, which is [args.path] when that is a
    directory and its parent otherwise: its text files by name, and the
    entries of its subdirectories by name.  [url_file] and
    [download_folder] are taken to be plain names in it. *)
Record disk := {
  text_files : gmap string string;
  folders : gmap string (gset string)
}.

Definition put_text (name : string) (content : option string) (d : disk)
  : disk :=
  {| text_files := partial_alter (λ _, content) name (text_files d);
     folders := folders d |}.

(** What the parse phase prints. *)
Inductive line :=
| NoJSONFiles (input_path : string)
| Processing (n : nat) (input_path : string)
| ExtractedFrom (count : nat) (name : string)
| TotalExtracted (total_urls : nat)
| ExtractedTo (count : nat)
| NotValid (input_path : string)
| FromExtractor (m : message).

Record finished := {
  disk_after : disk;
  log : list line;
  run : option state   (* the download phase, when it is reached *)
}.

(** The counts printed for the single files, in order. *)
Definition counts (out : list line) : list (nat * string) :=
  omap (λ l, match l with
             | ExtractedFrom count name => Some (count, name)
             | _ => None
             end) out.

(** What [if extracted_urls:] and the appending writes make of the work
    file. *)
Definition add_lines (file : option string) (urls : list string)
  : option string :=
  match urls with
  | [] => file
  | _ :: _ => append_lines file urls
  end.

Section Main.
Variable str_of : json → string.
Variable url_path : string → string.
Variable hash : string → Z.
Variable net : nat → string → response.

(** The lines that the extraction from one input writes. *)
Definition urls_in (loaded : load_result) : list string :=
  match loaded with
  | Loaded data => format_url str_of <$> extracted_urls data
  | _ => []
  end.

Definition parsed_urls (inp : input) : list string :=
  match inp with
  | Directory json_files => json_files.*2 ≫= urls_in
  | File loaded => urls_in loaded
  | Neither => []
  end.

(** [extract_urls_from_json(file_path)], as lines 377 and 385 call it:
    without [url_file]. *)
Definition extract_default (file_path : string) (loaded : load_result)
    (d : disk) : extraction * disk :=
  let r := extract_urls_from_json str_of file_path loaded
             (text_files d !! default_url_file) in
  (r, put_text default_url_file (output_file r) d).

(** Lines 376-379 *)
Definition parse_step (acc : disk * nat * list line)
    (json_file : string * load_result) : disk * nat * list line :=
  let '(d, total_urls, out) := acc in
  let '(r, d') := extract_default json_file.1 json_file.2 d in
  (d', total_urls + Extractor.returned r,
   out ++ (FromExtractor <$> printed r)
       ++ [ExtractedFrom (Extractor.returned r) (basename json_file.1)]).

(** Lines 364-392, nothing raising: whether [main] returns, the directory
    and the lines printed. *)
Definition parse_phase (input_path : string) (inp : input) (d : disk)
  : bool * disk * list line :=
  match inp with
  | Directory [] => (true, d, [NoJSONFiles input_path])
  | Directory json_files =>
      let '(d', total_urls, out) :=
        foldl parse_step
              (d, 0, [Processing (length json_files) input_path])
              json_files in
      (false, d', out ++ [TotalExtracted total_urls])
  | File loaded =>
      let '(r, d') := extract_default input_path loaded d in
      (false, d',
       (FromExtractor <$> printed r) ++ [ExtractedTo (Extractor.returned r)])
  | Neither => (false, d, [NotValid input_path])
  end.

(** Lines 394-405 *)
Definition download_phase (a : args) (d : disk) : disk * state :=
  let s := download_files_from_urls url_path hash net
             (text_files d !! url_file a)
             (default ∅ (folders d !! download_folder a)) in
  ({| text_files :=
        partial_alter (λ _, urls_file s) (url_file a) (text_files d);
      folders := <[download_folder a := download_dir s]> (folders d) |},
   s).

Definition main (a : args) (input_path : string) (inp : input) (d : disk)
  : finished :=
  let '(returns, d1, out) :=
    if parse a then parse_phase input_path inp d else (false, d, []) in
  if negb returns && download a then
    let '(d2, s) := download_phase a d1 in
    {| disk_after := d2; log := out; run := Some s |}
  else {| disk_after := d1; log := out; run := None |}.

End Main.

Definition nothing : disk := {| text_files := ∅; folders := ∅ |}.

Definition both_phases (name : string) : args :=
  {| url_file := name; parse := true; download := true;
     download_folder := "files" |}.

End Main.

(** * Properties *)

(** ** Strings and lines *)
Module PyStrFacts.
Import PyStr.

(** [x ∉ [a; b; ...]] for closed terms. *)
Ltac not_in_list :=
  repeat (apply not_elem_of_cons; split; [done|]); apply not_elem_of_nil.

Lemma append_nil (b : string) : EmptyString +:+ b = b.
Proof. reflexivity. Qed.

Lemma append_cons (x : ascii) (a b : string) :
  String x a +:+ b = String x (a +:+ b).
Proof. reflexivity. Qed.

Lemma append_assoc (a b c : string) : (a +:+ b) +:+ c = a +:+ (b +:+ c).
Proof.
  induction a as [|x a IH]; [done|]. by rewrite !append_cons, IH.
Qed.

Lemma append_empty_r (a : string) : a +:+ EmptyString = a.
Proof. induction a as [|x a IH]; [done|]. by rewrite append_cons, IH. Qed.

Lemma append_length (a b : string) :
  String.length (a +:+ b) = String.length a + String.length b.
Proof.
  induction a as [|x a IH]; [done|]. rewrite append_cons. simpl. by rewrite IH.
Qed.

Lemma append_inj_r (a b c : string) : a +:+ c = b +:+ c → a = b.
Proof.
  revert b. induction a as [|x a IH]; intros [|y b] H.
  - done.
  - apply (f_equal String.length) in H.
    rewrite append_nil, append_cons in H. simpl in H.
    rewrite append_length in H. lia.
  - apply (f_equal String.length) in H.
    rewrite append_nil, append_cons in H. simpl in H.
    rewrite append_length in H. lia.
  - rewrite !append_cons in H. injection H as -> H. f_equal. by apply IH.
Qed.

Lemma is_empty_true (s : string) : is_empty s = true ↔ s = EmptyString.
Proof. destruct s; simpl; split; congruence. Qed.

Lemma is_empty_false (s : string) : is_empty s = false ↔ s ≠ EmptyString.
Proof. destruct s; simpl; split; congruence. Qed.

Lemma rstrip_rstrip (s : string) : rstrip (rstrip s) = rstrip s.
Proof.
  induction s as [|c r IH]; simpl; [done|].
  destruct (is_space c && is_empty (rstrip r)) eqn:E; simpl; [done|].
  by rewrite IH, E.
Qed.

Lemma rstrip_snoc_space (s : string) (d : ascii) :
  is_space d = true → rstrip (s +:+ String d EmptyString) = rstrip s.
Proof.
  intros Hd. induction s as [|c r IH].
  - rewrite append_nil. simpl. by rewrite Hd.
  - rewrite append_cons. simpl. by rewrite IH.
Qed.

Lemma strip_snoc_space (s : string) (d : ascii) :
  is_space d = true → strip (s +:+ String d EmptyString) = strip s.
Proof.
  intros Hd. unfold strip. induction s as [|c r IH].
  - rewrite append_nil. simpl. by rewrite Hd.
  - rewrite append_cons. simpl. destruct (is_space c) eqn:E; [done|].
    rewrite <- append_cons. by apply rstrip_snoc_space.
Qed.

Lemma lstrip_head (s : string) :
  lstrip s = EmptyString ∨
  ∃ c r, lstrip s = String c r ∧ is_space c = false.
Proof.
  induction s as [|c r IH]; simpl; [by left|].
  destruct (is_space c) eqn:E; [done|]. right. eauto.
Qed.

Lemma lstrip_all_chars p (s : string) :
  all_chars p s = true → all_chars p (lstrip s) = true.
Proof.
  induction s as [|c r IH]; simpl; [done|].
  intros [Hc Hr]%andb_true_iff.
  destruct (is_space c); simpl; [auto | by rewrite Hc, Hr].
Qed.

Lemma rstrip_all_chars p (s : string) :
  all_chars p s = true → all_chars p (rstrip s) = true.
Proof.
  induction s as [|c r IH]; simpl; [done|].
  intros [Hc Hr]%andb_true_iff.
  destruct (is_space c && is_empty (rstrip r)); simpl; [done|].
  by rewrite Hc, IH.
Qed.

(** What [strip] returns is clean as soon as it is not empty and the text
    had no line break. *)
Lemma strip_clean (s : string) :
  all_chars not_newline s = true →
  strip s ≠ EmptyString → clean (strip s).
Proof.
  intros Hs Hne. unfold strip in *.
  destruct (lstrip_head s) as [E | (c & r & E & Hc)].
  { rewrite E in Hne. done. }
  split.
  - done.
  - rewrite E. simpl. rewrite Hc. simpl. by rewrite Hc.
  - apply rstrip_rstrip.
  - by apply rstrip_all_chars, lstrip_all_chars.
Qed.

Lemma clean_strip_line (u : string) :
  clean u → strip (u +:+ String LF EmptyString) = u.
Proof.
  intros [Hne Hl Hr _]. rewrite strip_snoc_space by done.
  unfold strip. by rewrite Hl, Hr.
Qed.


End PyStrFacts.

(** ** Reading and writing the work file *)
Module FileFacts.
Import PyStr PyStrFacts Namer.

Lemma translate_newlines_cons (c : ascii) (r : string) :
  translate_newlines (String c r) =
  if Ascii.eqb c CR then
    match r with
    | String d r' =>
        if Ascii.eqb d LF then String LF (translate_newlines r')
        else String LF (translate_newlines r)
    | EmptyString => String LF EmptyString
    end
  else String c (translate_newlines r).
Proof. reflexivity. Qed.

Lemma translate_newlines_no_cr (s : string) :
  all_chars not_cr (translate_newlines s) = true.
Proof.
  assert (∀ n s, String.length s ≤ n →
                 all_chars not_cr (translate_newlines s) = true)
    as H; [|by apply (H (String.length s))].
  clear s. induction n as [|n IH]; intros [|c r] Hlen; simpl in Hlen;
    try done; try lia.
  rewrite translate_newlines_cons. destruct (Ascii.eqb c CR) eqn:E.
  - destruct r as [|d r']; [done|]. simpl in Hlen.
    destruct (Ascii.eqb d LF); cbn [all_chars]; apply IH; simpl; lia.
  - cbn [all_chars]. unfold not_cr at 1. rewrite E. apply IH. lia.
Qed.

Lemma translate_newlines_id (s : string) :
  all_chars not_cr s = true → translate_newlines s = s.
Proof.
  induction s as [|c r IH]; [done|]. rewrite translate_newlines_cons.
  cbn [all_chars]. intros [Hc Hr]%andb_true_iff. apply negb_true_iff in Hc.
  by rewrite Hc, IH.
Qed.

Lemma lines_keepends_shape (t : string) :
  all_chars not_cr t = true →
  Forall (λ line, ∃ body, line_of line body) (lines_keepends t).
Proof.
  induction t as [|c r IH]; simpl; [constructor|].
  intros [Hc Hr]%andb_true_iff. apply negb_true_iff in Hc.
  specialize (IH Hr). destruct (Ascii.eqb c LF) eqn:E.
  - constructor; [|done]. exists EmptyString. split; [done|].
    right. apply Ascii.eqb_eq in E as ->. done.
  - assert (all_chars not_newline (String c EmptyString) = true) as H1.
    { simpl. unfold not_newline, is_newline. by rewrite E, Hc. }
    destruct (lines_keepends r) as [|l ls].
    + constructor; [|done]. exists (String c EmptyString).
      split; [done | by left].
    + inversion IH as [|? ? (body & Hb & Hl) Hls]; subst.
      constructor; [|done]. exists (String c body). split.
      * simpl. simpl in H1. rewrite andb_true_r in H1. by rewrite H1.
      * destruct Hl as [-> | ->]; [by left | by right].
Qed.

Lemma strip_line_of (line body : string) :
  line_of line body → strip line = strip body.
Proof.
  intros [_ [-> | ->]]; [done|]. by apply strip_snoc_space.
Qed.

(** Every entry read from a work file is clean. *)
Lemma read_urls_clean (content : string) : Forall clean (read_urls content).
Proof.
  unfold read_urls, readlines. apply Forall_fmap, Forall_forall.
  intros line [Hne Hin]%list_elem_of_filter. simpl.
  pose proof (lines_keepends_shape _ (translate_newlines_no_cr content)) as H.
  rewrite Forall_forall in H. destruct (H _ Hin) as (body & Hb).
  rewrite (strip_line_of _ _ Hb) in *. apply strip_clean; [apply Hb | done].
Qed.

Lemma one_line_no_cr (s : string) :
  all_chars not_newline s = true → all_chars not_cr s = true.
Proof.
  induction s as [|c r IH]; simpl; [done|].
  intros [Hc Hr]%andb_true_iff. rewrite IH by done.
  unfold not_newline, is_newline in Hc.
  apply negb_true_iff, orb_false_iff in Hc as [_ Hc]. unfold not_cr.
  by rewrite Hc.
Qed.

Lemma write_lines_app (l k : list string) :
  write_lines (l ++ k) = write_lines l +:+ write_lines k.
Proof.
  induction l as [|u l IH]; simpl; [done|].
  rewrite IH. by rewrite append_assoc, append_cons.
Qed.

Lemma write_lines_no_cr (l : list string) :
  Forall (λ u, all_chars not_newline u = true) l →
  all_chars not_cr (write_lines l) = true.
Proof.
  induction 1 as [|u l Hu _ IH]; simpl; [done|].
  pose proof (one_line_no_cr _ Hu) as H.
  clear Hu. induction u as [|c u IHu]; [done|].
  simpl in H. apply andb_true_iff in H as [Hc Hu].
  rewrite append_cons. simpl. by rewrite Hc, IHu.
Qed.

Lemma lines_keepends_line (u t : string) :
  all_chars not_newline u = true →
  lines_keepends (u +:+ String LF t)
  = (u +:+ String LF EmptyString) :: lines_keepends t.
Proof.
  induction u as [|c u IH]; [done|].
  simpl. intros [Hc Hu]%andb_true_iff. rewrite !append_cons. simpl.
  unfold not_newline, is_newline in Hc.
  apply negb_true_iff, orb_false_iff in Hc as [-> _]. by rewrite IH.
Qed.

(** The text written for URLs without line breaks has one line per URL. *)
Lemma readlines_write_lines (l : list string) :
  Forall (λ u, all_chars not_newline u = true) l →
  readlines (write_lines l) = (λ u, u +:+ String LF EmptyString) <$> l.
Proof.
  intros Hl. unfold readlines.
  rewrite translate_newlines_id by by apply write_lines_no_cr.
  induction Hl as [|u l Hu _ IH]; simpl; [done|].
  rewrite lines_keepends_line by apply Hu. by rewrite IH.
Qed.

(** Reading back what was written gives the entries written. *)
Lemma read_urls_write_lines (l : list string) :
  Forall clean l → read_urls (write_lines l) = l.
Proof.
  intros Hl. unfold read_urls. rewrite readlines_write_lines
    by (eapply Forall_impl; [done | apply clean_one_line]).
  induction Hl as [|u l Hu _ IH]; [done|].
  rewrite fmap_cons, filter_cons.
  rewrite (clean_strip_line _ Hu). destruct (decide _) as [_|Hne].
  - rewrite fmap_cons, IH. by rewrite (clean_strip_line _ Hu).
  - destruct Hne. apply Hu.
Qed.

End FileFacts.

(** ** The deduplicator and namer *)
Module NamerFacts.
Import PyStr PyStrFacts FileFacts Namer Scenario.

(** The loop of lines 103-108 keeps [seen] equal to the set of the URLs
    kept so far, which are those of the input read so far. *)
Lemma dedupe_fold_spec (urls : list string) :
  let acc := foldl dedupe_step ([], ∅) urls in
  (∀ u, u ∈ acc.2 ↔ u ∈ acc.1) ∧ (∀ u, u ∈ acc.1 ↔ u ∈ urls) ∧ NoDup acc.1.
Proof.
  induction urls as [|x urls IH] using rev_ind; simpl.
  { split_and!; [set_solver | done | constructor]. }
  rewrite foldl_snoc. destruct (foldl dedupe_step ([], ∅) urls) as [uniq seen].
  simpl in *. destruct IH as (Hseen & Hel & Hnd).
  destruct (decide (x ∈ seen)) as [Hx | Hx]; simpl.
  - split_and!; [done | | done]. intros u. rewrite elem_of_app, <- Hel.
    rewrite list_elem_of_singleton. split; [tauto|].
    intros [? | ->]; [done|]. by apply Hseen.
  - split_and!.
    + intros u. rewrite elem_of_union, elem_of_singleton, elem_of_app,
        list_elem_of_singleton, Hseen. done.
    + intros u. by rewrite !elem_of_app, Hel.
    + apply NoDup_app. split_and!; [done | | apply NoDup_singleton].
      intros u Hu ->%list_elem_of_singleton. by apply Hx, Hseen.
Qed.

Lemma remove_duplicates_elem_of (urls : list string) (u : string) :
  u ∈ remove_duplicates urls ↔ u ∈ urls.
Proof. apply (dedupe_fold_spec urls). Qed.

Lemma remove_duplicates_NoDup (urls : list string) :
  NoDup (remove_duplicates urls).
Proof. apply (dedupe_fold_spec urls). Qed.

(** First-seen order: a URL read next is appended exactly when it was not
    read before. *)
Lemma remove_duplicates_snoc (urls : list string) (x : string) :
  remove_duplicates (urls ++ [x]) =
  if decide (x ∈ urls) then remove_duplicates urls
  else remove_duplicates urls ++ [x].
Proof.
  unfold remove_duplicates. rewrite foldl_snoc.
  pose proof (dedupe_fold_spec urls) as (Hseen & Hel & _).
  destruct (foldl dedupe_step ([], ∅) urls) as [uniq seen]. simpl in *.
  destruct (decide (x ∈ seen)) as [Hx | Hx], (decide (x ∈ urls)) as [Hy | Hy];
    simpl; try done.
  - destruct Hy. by apply Hel, Hseen.
  - destruct Hx. by apply Hseen, Hel.
Qed.

Lemma remove_duplicates_nil : remove_duplicates [] = [].
Proof. reflexivity. Qed.

Lemma remove_duplicates_id (urls : list string) :
  NoDup urls → remove_duplicates urls = urls.
Proof.
  induction urls as [|x urls IH] using rev_ind; [done|].
  intros (Hnd & Hx & _)%NoDup_app. rewrite remove_duplicates_snoc.
  destruct (decide (x ∈ urls)) as [Hin | _].
  - destruct (Hx x Hin). by apply list_elem_of_singleton.
  - by rewrite IH.
Qed.

(** [Counter] counts. *)
Lemma count_of_Counter (names : list string) (x : string) :
  count_of (Counter names) x = length (filter (λ y, y = x) names).
Proof.
  unfold Counter. induction names as [|y names IH] using rev_ind; [done|].
  rewrite foldl_snoc, filter_app, length_app, filter_cons, filter_nil.
  unfold count_of at 1. destruct (decide (y = x)) as [-> | Hne].
  - rewrite lookup_insert_eq. simpl. rewrite IH. lia.
  - rewrite lookup_insert_ne by done. fold (count_of (foldl
      (λ counter name, <[name := S (count_of counter name)]> counter)
      ∅ names) x). rewrite IH. simpl. lia.
Qed.

Lemma filter_eq_length_ge_1 {A B} `{EqDecision B} (f : A → B) (l : list A)
    (c : A) :
  c ∈ l → 1 ≤ length (filter (λ y, y = f c) (f <$> l)).
Proof.
  induction l as [|x l IH]; [by intros ?%not_elem_of_nil|].
  rewrite fmap_cons, filter_cons. intros [<- | Hc]%elem_of_cons.
  - rewrite decide_True by done. simpl. lia.
  - destruct (decide _); simpl; [lia | by apply IH].
Qed.

Lemma filter_eq_length_ge_2 {A B} `{EqDecision B} (f : A → B) (l : list A)
    (a b : A) :
  a ≠ b → a ∈ l → b ∈ l → f a = f b →
  2 ≤ length (filter (λ y, y = f a) (f <$> l)).
Proof.
  intros Hne Ha Hb Hf.
  induction l as [|x l IH]; [by apply not_elem_of_nil in Ha|].
  rewrite fmap_cons, filter_cons.
  apply elem_of_cons in Ha as [<- | Ha], Hb as [<- | Hb]; try done.
  - rewrite decide_True by done. simpl. rewrite Hf.
    pose proof (filter_eq_length_ge_1 f l b Hb). lia.
  - rewrite decide_True by done. simpl.
    pose proof (filter_eq_length_ge_1 f l a Ha). lia.
  - specialize (IH Ha Hb). destruct (decide _); simpl; lia.
Qed.

Section UrlLib.
Variable url_path : string → string.

Lemma foldl_insert_lookup (g : url_info → string) (urls : list string)
    (u : string) :
  foldl (λ (mapping : gmap string string) info,
           <[url info := g info]> mapping) ∅
        (info_of url_path <$> urls) !! u
  = if decide (u ∈ urls) then Some (g (info_of url_path u)) else None.
Proof.
  induction urls as [|x urls IH] using rev_ind.
  { destruct (decide (u ∈ [])) as [?%not_elem_of_nil|]; [done|].
    apply lookup_empty. }
  rewrite fmap_app. change (info_of url_path <$> [x]) with [info_of url_path x].
  rewrite foldl_snoc. change (url (info_of url_path x)) with x.
  destruct (decide (x = u)) as [-> | Hne].
  - rewrite lookup_insert_eq. rewrite decide_True; [done|].
    apply elem_of_app. right. by apply list_elem_of_singleton.
  - rewrite lookup_insert_ne by done. rewrite IH.
    destruct (decide (u ∈ urls)) as [Hin | Hin].
    + rewrite decide_True; [done|]. apply elem_of_app. by left.
    + rewrite decide_False; [done|].
      intros [? | ->%list_elem_of_singleton]%elem_of_app; done.
Qed.

(** The mapping gives every unique URL the name of lines 168-171, and
    nothing else. *)
Lemma make_mapping_lookup (urls : list string) (u : string) :
  make_mapping (info_of url_path <$> urls) !! u
  = if decide (u ∈ urls)
    then Some (unique_filename
                 (Counter (original_filename <$> (info_of url_path <$> urls)))
                 (info_of url_path u))
    else None.
Proof. unfold make_mapping. apply foldl_insert_lookup. Qed.

Lemma original_filename_info_of (u : string) :
  original_filename (info_of url_path u) = filename_of url_path u.
Proof. reflexivity. Qed.

(** Two unique URLs with the same original filename are both renamed. *)
Lemma colliding_unique_filename (urls : list string) (u v : string) :
  u ∈ urls → v ∈ urls → u ≠ v →
  filename_of url_path u = filename_of url_path v →
  make_mapping (info_of url_path <$> urls) !! u
  = Some (base_name (info_of url_path u) +:+ file_id_of url_path u
          +:+ extension (info_of url_path u)).
Proof.
  intros Hu Hv Hne Hf. rewrite make_mapping_lookup, decide_True by done.
  unfold unique_filename. rewrite decide_True; [done|].
  rewrite count_of_Counter, <- list_fmap_compose.
  pose proof (filter_eq_length_ge_2 (original_filename ∘ info_of url_path)
                urls u v Hne Hu Hv Hf) as H. simpl in H.
  change (original_filename (info_of url_path u)) with (filename_of url_path u).
  unfold filename_of at 1 in H. unfold filename_of at 1. lia.
Qed.

(** C6. The original filename of a URL, read off the segments of its path:
    the segment after the first segment equal to [download] when there is
    one; [download.bin] when that [download] is the last segment; without a
    [download] segment, the last segment, or [file.bin] when that is
    empty. *)
Theorem original_filename_derivation (u : string) :
  let path_parts := split "/" (url_path u) in
  original_filename (info_of url_path u) = filename_of url_path u ∧
  (∀ before next after,
     path_parts = before ++ "download" :: next :: after →
     "download" ∉ before → filename_of url_path u = next) ∧
  (∀ before,
     path_parts = before ++ ["download"] →
     "download" ∉ before → filename_of url_path u = "download.bin") ∧
  (∀ segment,
     "download" ∉ path_parts → last path_parts = Some segment →
     segment ≠ EmptyString → filename_of url_path u = segment) ∧
  ("download" ∉ path_parts → last path_parts = Some EmptyString →
   filename_of url_path u = "file.bin").
Proof.
  intros path_parts. unfold filename_of. fold path_parts.
  assert (∀ before rest, path_parts = before ++ "download" :: rest →
            "download" ∉ before →
            list_find (λ part, part = "download") path_parts
            = Some (length before, "download")) as Hfound.
  { intros before rest -> Hnot. apply list_find_Some. split_and!.
    - by rewrite lookup_app_r, Nat.sub_diag by lia.
    - done.
    - intros j y Hj Hlt ->. apply Hnot.
      rewrite lookup_app_l in Hj by done. by eapply list_elem_of_lookup_2. }
  assert ("download" ∉ path_parts →
          list_find (λ part, part = "download") path_parts = None) as Hnone.
  { intros Hnot. apply list_find_None, Forall_forall. by intros x Hx ->. }
  split_and!.
  - done.
  - intros before next after Hparts Hnot.
    rewrite (Hfound _ _ Hparts Hnot). rewrite Hparts, length_app. simpl.
    rewrite decide_True by lia.
    rewrite lookup_app_r by lia.
    by replace (length before + 1 - length before) with 1 by lia.
  - intros before Hparts Hnot.
    rewrite (Hfound _ _ Hparts Hnot). rewrite Hparts, length_app. simpl.
    by rewrite decide_False by lia.
  - intros segment Hnot Hlast Hne. rewrite (Hnone Hnot).
    unfold basename. fold path_parts. rewrite Hlast. simpl.
    by destruct segment.
  - intros Hnot Hlast. rewrite (Hnone Hnot).
    unfold basename. fold path_parts. by rewrite Hlast.
Qed.

Lemma process_url_file_clean (file : option string) :
  Forall clean (unique_urls (process_url_file url_path file).1).
Proof.
  destruct file as [content|]; simpl; [|constructor].
  apply Forall_forall. intros u Hu.
  apply (proj1 (remove_duplicates_elem_of _ _)) in Hu.
  pose proof (read_urls_clean content) as H. rewrite Forall_forall in H. auto.
Qed.

Lemma process_url_file_NoDup (file : option string) :
  NoDup (unique_urls (process_url_file url_path file).1).
Proof.
  destruct file as [content|]; simpl; [|constructor].
  apply remove_duplicates_NoDup.
Qed.

(** C5. Running the deduplicator on the work file it rewrote returns the
    same unique URLs and the same mapping and writes the same file.  The
    unique URLs are the URLs read with the duplicates removed: they have no
    duplicates, are the same URLs, and are in first-seen order, a URL being
    appended exactly when it is read for the first time. *)
Theorem deduplication_idempotent (file : option string) :
  let first := process_url_file url_path file in
  let second := process_url_file url_path first.2 in
  unique_urls second.1 = unique_urls first.1 ∧
  filename_mapping second.1 = filename_mapping first.1 ∧
  second.2 = first.2 ∧
  NoDup (unique_urls first.1) ∧
  (∀ content,
     unique_urls (process_url_file url_path (Some content)).1
     = remove_duplicates (read_urls content)) ∧
  (∀ urls u, u ∈ remove_duplicates urls ↔ u ∈ urls) ∧
  remove_duplicates [] = [] ∧
  (∀ urls x,
     remove_duplicates (urls ++ [x]) =
     if decide (x ∈ urls) then remove_duplicates urls
     else remove_duplicates urls ++ [x]).
Proof.
  intros first second.
  assert (unique_urls second.1 = unique_urls first.1) as Hsame.
  { subst first second. destruct file as [content|]; simpl; [|done].
    rewrite read_urls_write_lines.
    - apply remove_duplicates_id, remove_duplicates_NoDup.
    - apply (process_url_file_clean (Some content)). }
  split_and!.
  - done.
  - subst first second. destruct file as [content|]; simpl in *; [|done].
    by rewrite Hsame.
  - subst first second. destruct file as [content|]; simpl in *; [|done].
    by rewrite Hsame.
  - apply process_url_file_NoDup.
  - done.
  - apply remove_duplicates_elem_of.
  - done.
  - apply remove_duplicates_snoc.
Qed.

(** C4, as the code has it.  Two distinct unique URLs with the same original
    filename are renamed to base name, ["-"], id token, extension; when
    their id tokens differ, so do their names. *)
Lemma colliding_names (content u1 u2 token1 token2 : string) :
  let data := (process_url_file url_path (Some content)).1 in
  u1 ∈ unique_urls data → u2 ∈ unique_urls data → u1 ≠ u2 →
  filename_of url_path u1 = filename_of url_path u2 →
  search_id (url_path u1) = Some token1 →
  search_id (url_path u2) = Some token2 →
  ∃ base ext,
    filename_mapping data !! u1 = Some (base +:+ ("-" +:+ token1) +:+ ext) ∧
    filename_mapping data !! u2 = Some (base +:+ ("-" +:+ token2) +:+ ext) ∧
    (token1 ≠ token2 →
     filename_mapping data !! u1 ≠ filename_mapping data !! u2).
Proof.
  simpl. intros H1 H2 Hne Hf Ht1 Ht2.
  exists (base_name (info_of url_path u1)), (extension (info_of url_path u1)).
  assert (∀ t, base_name (info_of url_path u1) +:+ t
               +:+ extension (info_of url_path u1)
             = base_name (info_of url_path u2) +:+ t
               +:+ extension (info_of url_path u2)) as Hparts.
  { intros t. unfold info_of. simpl. by rewrite Hf. }
  rewrite (colliding_unique_filename _ u1 u2),
    (colliding_unique_filename _ u2 u1) by done.
  unfold file_id_of. rewrite Ht1, Ht2, <- Hparts. split_and!; [done..|].
  intros Htok [= Heq]. apply String.app_inj in Heq.
  apply append_inj_r in Heq. by injection Heq.
Qed.

End UrlLib.

Lemma original_filename_derivation_witness :
  filename_of urlparse_path "https://x/T1-F1/download/report.pdf" = "report.pdf"
  ∧ filename_of urlparse_path "https://x/T1-F1/download" = "download.bin"
  ∧ filename_of urlparse_path "https://x/files/report.pdf" = "report.pdf"
  ∧ filename_of urlparse_path "https://x/files/" = "file.bin".
Proof.
  split_and!.
  - apply (original_filename_derivation urlparse_path
             "https://x/T1-F1/download/report.pdf")
      with (before := [EmptyString; "T1-F1"]) (after := []).
    + reflexivity.
    + vm_compute. not_in_list.
  - apply (original_filename_derivation urlparse_path
             "https://x/T1-F1/download")
      with (before := [EmptyString; "T1-F1"]).
    + reflexivity.
    + vm_compute. not_in_list.
  - apply (original_filename_derivation urlparse_path
             "https://x/files/report.pdf").
    + vm_compute. not_in_list.
    + reflexivity.
    + done.
  - apply (original_filename_derivation urlparse_path "https://x/files/").
    + vm_compute. not_in_list.
    + reflexivity.
Defined.

(** C4. Pairwise distinct names need pairwise distinct id tokens among the
    URLs that share an original filename; with them, the names of those
    URLs are distinct, as for [.../T1-F1/download/report.pdf] and
    [.../T2-F2/download/report.pdf], renamed [report-F1.pdf] and
    [report-F2.pdf]. *)
Theorem colliding_names_distinct :
  (∀ url_path content u1 u2 token1 token2,
     let data := (process_url_file url_path (Some content)).1 in
     u1 ∈ unique_urls data → u2 ∈ unique_urls data → u1 ≠ u2 →
     filename_of url_path u1 = filename_of url_path u2 →
     search_id (url_path u1) = Some token1 →
     search_id (url_path u2) = Some token2 →
     ∃ base ext,
       filename_mapping data !! u1
       = Some (base +:+ ("-" +:+ token1) +:+ ext) ∧
       filename_mapping data !! u2
       = Some (base +:+ ("-" +:+ token2) +:+ ext) ∧
       (token1 ≠ token2 →
        filename_mapping data !! u1 ≠ filename_mapping data !! u2)) ∧
  (let data := (process_url_file urlparse_path (Some two_reports)).1 in
   unique_urls data = [u1; u2] ∧
   filename_mapping data !! u1 = Some "report-F1.pdf" ∧
   filename_mapping data !! u2 = Some "report-F2.pdf").
Proof.
  split.
  - intros url_path. apply colliding_names.
  - by vm_compute.
Qed.

Lemma colliding_names_distinct_witness :
  let data := (process_url_file urlparse_path (Some two_reports)).1 in
  filename_mapping data !! u1 ≠ filename_mapping data !! u2.
Proof.
  destruct (proj1 colliding_names_distinct urlparse_path two_reports
              u1 u2 "F1" "F2") as (base & ext & _ & _ & H).
  - vm_compute. apply list_elem_of_here.
  - vm_compute. apply list_elem_of_further, list_elem_of_here.
  - done.
  - reflexivity.
  - reflexivity.
  - reflexivity.
  - apply H. done.
Defined.

(** C4 as stated fails: two URLs with the same original filename and the
    same id token, both extractable, get the same name. *)
Lemma same_token_same_name :
  let data := (process_url_file urlparse_path (Some same_token)).1 in
  unique_urls data = [u1; u3] ∧
  filename_of urlparse_path u1 = filename_of urlparse_path u3 ∧
  search_id (urlparse_path u1) = Some "F1" ∧
  search_id (urlparse_path u3) = Some "F1" ∧
  filename_mapping data !! u1 = Some "report-F1.pdf" ∧
  filename_mapping data !! u3 = Some "report-F1.pdf".
Proof. by vm_compute. Qed.

End NamerFacts.

(** ** The extractor *)
Module ExtractorFacts.
Import PyStr Extractor Scenario.

(** C8. A missing file, malformed JSON or any other error while loading
    makes the extractor print an error and return 0, the work file
    untouched; otherwise it returns the number of URLs collected, which it
    has appended to the work file, one [url + "\n"] each, leaving the file
    as it is (not even created) when there is none.  What is appended has
    one line per URL when no URL contains a line break. *)
Theorem extract_urls_from_json_count (str_of : json → string)
    (file_path : string) (input : load_result) (file : option string) :
  let r := extract_urls_from_json str_of file_path input file in
  match input with
  | Loaded data =>
      let urls := format_url str_of <$> extracted_urls data in
      returned r = length urls ∧
      printed r = [] ∧
      output_file r =
        match urls with
        | [] => file
        | _ :: _ => Some (default EmptyString file +:+ write_lines urls)
        end ∧
      (Forall (λ u, all_chars not_newline u = true) urls →
       readlines (write_lines urls)
       = (λ u, u +:+ String LF EmptyString) <$> urls)
  | JSONDecodeError =>
      returned r = 0 ∧ output_file r = file ∧
      printed r = [InvalidJSON file_path]
  | FileNotFoundError =>
      returned r = 0 ∧ output_file r = file ∧
      printed r = [NotFound file_path]
  | OtherException e =>
      returned r = 0 ∧ output_file r = file ∧
      printed r = [ErrorProcessing file_path e]
  end.
Proof.
  destruct input as [data| | |e]; simpl; try done.
  rewrite length_fmap. split_and!; [done..| |].
  - by destruct (extracted_urls data).
  - apply FileFacts.readlines_write_lines.
Qed.

Lemma extract_urls_from_json_count_witness :
  let r := extract_urls_from_json (λ _, EmptyString) "a.json"
             (Loaded two_files) None in
  returned r = 2 ∧ output_file r = Some two_reports ∧
  readlines two_reports
  = [u1 +:+ String LF EmptyString; u2 +:+ String LF EmptyString].
Proof.
  destruct (extract_urls_from_json_count (λ _, EmptyString) "a.json"
              (Loaded two_files) None) as (H1 & _ & H2 & H3).
  split_and!.
  - exact H1.
  - exact H2.
  - apply H3. by repeat constructor.
Defined.

End ExtractorFacts.

(** ** The download executor *)
Module ExecutorFacts.
Import PyStr PyStrFacts FileFacts Namer NamerFacts Executor Scenario.

Lemma gets_app (t1 t2 : list event) : gets (t1 ++ t2) = gets t1 ++ gets t2.
Proof. apply omap_app. Qed.

Lemma sleeps_app (t1 t2 : list event) :
  sleeps (t1 ++ t2) = sleeps t1 ++ sleeps t2.
Proof. apply omap_app. Qed.

Lemma outcomes_app (t1 t2 : list event) :
  outcomes (t1 ++ t2) = outcomes t1 ++ outcomes t2.
Proof. apply omap_app. Qed.

Lemma count_app (o : download_outcome) (t1 t2 : list event) :
  count o (t1 ++ t2) = count o t1 + count o t2.
Proof. unfold count. by rewrite outcomes_app, filter_app, length_app. Qed.

Lemma count_total (t : list event) :
  count Succeeded t + count FailedPermanently t + count Skipped t
  = length (outcomes t).
Proof.
  unfold count. induction (outcomes t) as [|[u o] l IH]; [done|].
  rewrite !filter_cons. simpl. destruct o;
    repeat (destruct (decide _); try done); simpl; lia.
Qed.

Lemma path_exists_mono (dir dir' : gset string) (name : string) :
  dir ⊆ dir' → path_exists dir' name = false → path_exists dir name = false.
Proof.
  unfold path_exists. intros Hsub [H1 H2]%orb_false_iff. rewrite H1. simpl.
  apply bool_decide_eq_false. apply bool_decide_eq_false in H2. set_solver.
Qed.

Section Run.
Variable url_path : string → string.
Variable hash : string → Z.
Variable net : nat → string → response.
Variable mapping : gmap string string.

Local Abbreviation target := (target_name url_path hash mapping).
Local Abbreviation next := (step url_path hash net mapping).

Lemma run_S (n : nat) (s : state) :
  Nat.iter (S n) next s = next (Nat.iter n next s).
Proof. reflexivity. Qed.

Lemma run_S_r (n : nat) (s : state) :
  Nat.iter (S n) next s = Nat.iter n next (next s).
Proof. apply Nat.iter_succ_r. Qed.

Lemma run_add (n m : nat) (s : state) :
  Nat.iter (n + m) next s = Nat.iter m next (Nat.iter n next s).
Proof. rewrite Nat.add_comm. apply Nat.iter_add. Qed.

Lemma next_retrying (s : state) (u name : string) :
  position s = Attempting u name → retrying s = true →
  next s = attempt net u name s.
Proof.
  unfold next, step, retrying. intros -> H. by rewrite H.
Qed.

(** The attempt loop, entered with [retry_count = k]: it is left after at
    most [4 - k] attempts, the URL popped, either downloaded or given up
    after the attempt that makes [retry_count] exceed [max_retries]. *)
Lemma attempt_loop (d k : nat) (s : state) (u name : string)
    (rest : list string) :
  k + d = max_retries →
  position s = Attempting u name → download_success s = false →
  retry_count s = k → remaining_urls s = u :: rest →
  ∃ n o, let s' := Nat.iter n next s in
    1 ≤ n ≤ 4 - k ∧
    position s' = Attempting u name ∧ retrying s' = false ∧
    remaining_urls s' = rest ∧
    trace s'
    = trace s ++ attempt_events u (take (n - 1) (drop k [30; 30; 90])) o ∧
    skipped_count s' = skipped_count s ∧
    ((o = Succeeded ∧
      success_count s' = success_count s + 1 ∧
      fail_count s' = fail_count s)
     ∨ (o = FailedPermanently ∧ k + n = 4 ∧
        success_count s' = success_count s ∧
        fail_count s' = fail_count s + 1)).
Proof.
  unfold max_retries. revert k s.
  induction d as [|d IH]; intros k s Hk Hpos Hds Hrc Hrem.
  - (* the fourth attempt *)
    assert (k = 3) as -> by lia.
    assert (retrying s = true) as Hre.
    { unfold retrying, max_retries. by rewrite Hrc, Hds. }
    pose proof (next_retrying _ _ _ Hpos Hre) as Hnext.
    unfold attempt in Hnext.
    destruct (net (requests s) u) as [|created].
    + exists 1, Succeeded. simpl. rewrite Hnext. simpl. rewrite Hrem.
      split_and!; try done; try lia; [|left; by split_and!].
      unfold retrying. simpl. apply andb_false_r.
    + rewrite Hrc in Hnext. simpl in Hnext.
      exists 1, FailedPermanently. simpl. rewrite Hnext. simpl. rewrite Hrem.
      split_and!; try done; try lia. right. by split_and!.
  - assert (k < 3) as Hlt by lia.
    assert (retrying s = true) as Hre.
    { unfold retrying, max_retries. rewrite Hrc, Hds.
      by rewrite (proj2 (Nat.leb_le k 3)) by lia. }
    pose proof (next_retrying _ _ _ Hpos Hre) as Hnext.
    unfold attempt in Hnext.
    destruct (net (requests s) u) as [|created] eqn:Hnet.
    + exists 1, Succeeded. simpl. rewrite Hnext. simpl. rewrite Hrem.
      split_and!; try done; try lia; [|left; by split_and!].
      unfold retrying. simpl. apply andb_false_r.
    + rewrite Hrc in Hnext.
      assert ((k + 1 <=? max_retries) = true) as Hle
        by (apply Nat.leb_le; unfold max_retries; lia).
      rewrite Hle in Hnext.
      destruct (IH (k + 1) (next s))
        as (n & o & Hn & Hp & Hr & Hrm & Ht & Hsk & Ho);
        [lia | by rewrite Hnext..|].
      exists (S n), o. cbv zeta. rewrite run_S_r.
      split_and!; [lia | lia | done | done | done | | |].
      * rewrite Ht, Hnext. simpl. rewrite <- app_assoc. f_equal.
        replace (n - 0) with (S (n - 1)) by lia.
        by destruct k as [|[|[|]]]; try lia.
      * rewrite Hsk, Hnext. done.
      * assert (success_count (next s) = success_count s) as Hsc
          by (by rewrite Hnext).
        assert (fail_count (next s) = fail_count s) as Hfc
          by (by rewrite Hnext).
        rewrite Hsc, Hfc in Ho.
        destruct Ho as [(? & ? & ?) | (? & ? & ? & ?)]; [left | right];
          split_and!; try done; lia.
Qed.

Lemma next_loop_head (s : state) (u : string) (rest : list string) :
  position s = LoopHead → remaining_urls s = u :: rest →
  next s = pre_check url_path hash mapping u s.
Proof. unfold next, step. by intros -> ->. Qed.

Lemma next_leave_attempts (s : state) (u name : string) :
  position s = Attempting u name → retrying s = false →
  next s = goto LoopHead s.
Proof. unfold next, step, retrying. intros -> H. by rewrite H. Qed.

(** A URL whose target exists: two steps lead back to the head of the outer
    loop, the URL popped and counted as skipped, nothing requested. *)
Lemma skip_url (s : state) (u : string) (rest : list string) :
  position s = LoopHead → remaining_urls s = u :: rest →
  path_exists (download_dir s) (target u) = true →
  let s' := Nat.iter 2 next s in
  position s' = LoopHead ∧ remaining_urls s' = rest ∧
  trace s' = trace s ++ [Outcome u Skipped] ∧
  skipped_count s' = skipped_count s + 1 ∧
  success_count s' = success_count s ∧ fail_count s' = fail_count s ∧
  requests s' = requests s ∧ urls_file s' = urls_file s.
Proof.
  intros Hpos Hrem Hex. simpl.
  rewrite (next_loop_head _ _ _ Hpos Hrem). unfold pre_check.
  rewrite Hex.
  rewrite (next_leave_attempts _ u (target u)); [|done|].
  - simpl. by rewrite Hrem.
  - unfold retrying. simpl. apply andb_false_r.
Qed.

(** The state in which the attempt loop is entered for [u]. *)
Lemma enter_attempts (s : state) (u : string) (rest : list string) :
  position s = LoopHead → remaining_urls s = u :: rest →
  path_exists (download_dir s) (target u) = false →
  let s' := next s in
  position s' = Attempting u (target u) ∧ download_success s' = false ∧
  retry_count s' = 0 ∧ remaining_urls s' = u :: rest ∧
  trace s' = trace s ∧ skipped_count s' = skipped_count s ∧
  success_count s' = success_count s ∧ fail_count s' = fail_count s.
Proof.
  intros Hpos Hrem Hex. simpl.
  rewrite (next_loop_head _ _ _ Hpos Hrem). unfold pre_check.
  by rewrite Hex.
Qed.

(** Every URL is done with within six steps. *)
Lemma finish_url (s : state) (u : string) (rest : list string) :
  position s = LoopHead → remaining_urls s = u :: rest →
  ∃ m, m ≤ 6 ∧ position (Nat.iter m next s) = LoopHead ∧
       remaining_urls (Nat.iter m next s) = rest.
Proof.
  intros Hpos Hrem.
  destruct (path_exists (download_dir s) (target u)) eqn:Hex.
  - exists 2. split; [lia|].
    destruct (skip_url s u rest Hpos Hrem Hex) as (? & ? & _). done.
  - destruct (enter_attempts s u rest Hpos Hrem Hex)
      as (Hp & Hds & Hrc & Hrm & _).
    destruct (attempt_loop 3 0 (next s) u (target u) rest)
      as (n & evs & Hn & Hp' & Hre & Hrm' & _); try done.
    exists (S (S n)). split; [lia|].
    rewrite run_S, run_S_r. rewrite (next_leave_attempts _ _ _ Hp' Hre).
    done.
Qed.

Lemma next_exited (s : state) : position s = Exited → next s = s.
Proof. unfold next, step. by intros ->. Qed.

Lemma run_exited (n : nat) (s : state) :
  position s = Exited → Nat.iter n next s = s.
Proof.
  intros H. induction n as [|n IH]; [done|].
  by rewrite run_S, IH, next_exited.
Qed.

(** The outer loop is left after at most [6 * len(remaining_urls) + 1]
    steps, and with an empty list. *)
Lemma reach_exit (s : state) :
  position s = LoopHead →
  ∃ m, m ≤ 6 * length (remaining_urls s) + 1 ∧
       position (Nat.iter m next s) = Exited ∧
       remaining_urls (Nat.iter m next s) = [].
Proof.
  remember (remaining_urls s) as urls eqn:Hrem. revert s Hrem.
  induction urls as [|u rest IH]; intros s Hrem Hpos.
  - exists 1. simpl. split; [lia|]. unfold next, step.
    by rewrite Hpos, <- Hrem.
  - destruct (finish_url s u rest Hpos (eq_sym Hrem)) as (m & Hm & Hp & Hr).
    destruct (IH (Nat.iter m next s) (eq_sym Hr) Hp) as (m' & Hm' & Hp' & Hr').
    exists (m + m'). rewrite run_add. simpl in *. split_and!; [lia | done..].
Qed.

Lemma run_enough (n : nat) (s : state) :
  position s = LoopHead → 6 * length (remaining_urls s) + 1 ≤ n →
  position (Nat.iter n next s) = Exited ∧
  remaining_urls (Nat.iter n next s) = [].
Proof.
  intros Hpos Hn. destruct (reach_exit s Hpos) as (m & Hm & Hp & Hr).
  replace n with (m + (n - m)) by lia.
  by rewrite run_add, run_exited.
Qed.

(** *** The attempts, answer by answer *)

Lemma retrying_true (s : state) :
  download_success s = false → retry_count s ≤ max_retries →
  retrying s = true.
Proof.
  intros Hds Hrc. unfold retrying. rewrite Hds, andb_true_r.
  by apply Nat.leb_le.
Qed.

(** A failed attempt that is not the last one. *)
Lemma attempt_failed (s : state) (u name : string) (created : bool) :
  net (requests s) u = Failed created → retry_count s + 1 ≤ max_retries →
  let s' := attempt net u name s in
  position s' = position s ∧ download_success s' = download_success s ∧
  retry_count s' = retry_count s + 1 ∧
  remaining_urls s' = remaining_urls s ∧ requests s' = S (requests s) ∧
  trace s'
  = trace s ++ [RandomDelay; Get u;
                Sleep (if retry_count s + 1 <? max_retries then 30 else 90)] ∧
  success_count s' = success_count s ∧ fail_count s' = fail_count s ∧
  urls_file s' = urls_file s.
Proof.
  intros Hnet Hle. unfold attempt. rewrite Hnet.
  by rewrite (proj2 (Nat.leb_le _ _) Hle).
Qed.

(** The attempt that succeeds. *)
Lemma attempt_downloaded (s : state) (u name : string) :
  net (requests s) u = Downloaded →
  let s' := attempt net u name s in
  position s' = position s ∧ retrying s' = false ∧
  remaining_urls s' = tail (remaining_urls s) ∧
  requests s' = S (requests s) ∧
  trace s' = trace s ++ [RandomDelay; Get u; Outcome u Succeeded] ∧
  success_count s' = success_count s + 1 ∧ fail_count s' = fail_count s ∧
  urls_file s' = Some (write_lines (tail (remaining_urls s))).
Proof.
  intros Hnet. unfold attempt. rewrite Hnet. simpl.
  split_and!; [done | | done..]. unfold retrying. simpl. apply andb_false_r.
Qed.

(** The failed attempt that exhausts the retries. *)
Lemma attempt_given_up (s : state) (u name : string) (created : bool) :
  net (requests s) u = Failed created → retry_count s = max_retries →
  let s' := attempt net u name s in
  position s' = position s ∧ retrying s' = false ∧
  remaining_urls s' = tail (remaining_urls s) ∧
  requests s' = S (requests s) ∧
  trace s' = trace s ++ [RandomDelay; Get u; Outcome u FailedPermanently] ∧
  success_count s' = success_count s ∧ fail_count s' = fail_count s + 1 ∧
  urls_file s'
  = Some (write_lines ((failed_prefix +:+ u) :: tail (remaining_urls s))).
Proof.
  intros Hnet Hrc. unfold attempt. rewrite Hnet, Hrc. simpl.
  split_and!; [done | done | done..| by rewrite append_assoc].
Qed.

(** [i] attempts in a row that fail, none of them the last one. *)
Lemma failed_attempts (i k : nat) (s : state) (u name : string)
    (rest : list string) :
  position s = Attempting u name → download_success s = false →
  retry_count s = k → remaining_urls s = u :: rest →
  k + i ≤ max_retries →
  (∀ j, j < i → ∃ created, net (requests s + j) u = Failed created) →
  let s' := Nat.iter i next s in
  position s' = Attempting u name ∧ download_success s' = false ∧
  retry_count s' = k + i ∧ remaining_urls s' = u :: rest ∧
  requests s' = requests s + i ∧
  trace s'
  = trace s ++ (take i (drop k [30; 30; 90])
                  ≫= λ wait_time, [RandomDelay; Get u; Sleep wait_time]) ∧
  success_count s' = success_count s ∧ fail_count s' = fail_count s ∧
  urls_file s' = urls_file s.
Proof.
  revert s k. induction i as [|i IH]; intros s k Hpos Hds Hrc Hrem Hk Hfail.
  - simpl. rewrite !Nat.add_0_r, app_nil_r. done.
  - cbv zeta. rewrite run_S_r.
    assert (retrying s = true) as Hre by (apply retrying_true; [done|lia]).
    rewrite (next_retrying _ _ _ Hpos Hre).
    destruct (Hfail 0) as [created Hnet]; [lia|]. rewrite Nat.add_0_r in Hnet.
    destruct (attempt_failed s u name created Hnet)
      as (Hp1 & Hd1 & Hr1 & Hm1 & Hq1 & Ht1 & Hs1 & Hf1 & Hu1); [lia|].
    destruct (IH (attempt net u name s) (k + 1))
      as (Hp2 & Hd2 & Hr2 & Hm2 & Hq2 & Ht2 & Hs2 & Hf2 & Hu2).
    + by rewrite Hp1.
    + by rewrite Hd1.
    + by rewrite Hr1, Hrc.
    + by rewrite Hm1.
    + lia.
    + intros j Hj. rewrite Hq1.
      destruct (Hfail (S j)) as [c Hc]; [lia|]. exists c.
      by replace (S (requests s) + j) with (requests s + S j) by lia.
    + split_and!; [done | done | lia | done | lia | | congruence..].
      rewrite Ht2, Ht1, Hrc, <- app_assoc. f_equal.
      unfold max_retries in Hk.
      by destruct k as [|[|[|k]]]; [..|lia].
Qed.

(** A URL that is not skipped, its requests answered by [i] failures and
    then by a download, or by four failures. *)
Lemma attempts_answered (s : state) (u : string) (rest : list string)
    (i : nat) :
  position s = LoopHead → remaining_urls s = u :: rest →
  path_exists (download_dir s) (target u) = false →
  i ≤ max_retries →
  (∀ j, j < i → ∃ created, net (requests s + j) u = Failed created) →
  let s' := Nat.iter (2 + i) next s in
  (net (requests s + i) u = Downloaded →
   position s' = Attempting u (target u) ∧ retrying s' = false ∧
   remaining_urls s' = rest ∧
   trace s' = trace s ++ attempt_events u (take i [30; 30; 90]) Succeeded ∧
   success_count s' = success_count s + 1 ∧ fail_count s' = fail_count s ∧
   requests s' = requests s + i + 1 ∧
   urls_file s' = Some (write_lines rest)) ∧
  (∀ created,
     i = max_retries → net (requests s + i) u = Failed created →
     position s' = Attempting u (target u) ∧ retrying s' = false ∧
     remaining_urls s' = rest ∧
     trace s' = trace s ++ attempt_events u [30; 30; 90] FailedPermanently ∧
     success_count s' = success_count s ∧ fail_count s' = fail_count s + 1 ∧
     requests s' = requests s + max_retries + 1 ∧
     urls_file s' = Some (write_lines ((failed_prefix +:+ u) :: rest))).
Proof.
  intros Hpos Hrem Hex Hi Hfail.
  destruct (enter_attempts s u rest Hpos Hrem Hex)
    as (Hp & Hds & Hrc & Hrm & Htr & _ & Hsc & Hfc).
  assert (requests (next s) = requests s) as Hrq.
  { rewrite (next_loop_head _ _ _ Hpos Hrem). unfold pre_check.
    by rewrite Hex. }
  destruct (failed_attempts i 0 (next s) u (target u) rest Hp Hds Hrc Hrm)
    as (Hp' & Hds' & Hrc' & Hrm' & Hrq' & Ht' & Hsc' & Hfc' & _).
  { lia. }
  { intros j Hj. rewrite Hrq. by apply Hfail. }
  cbv zeta. change (2 + i) with (S (S i)). rewrite run_S, run_S_r.
  assert (retrying (Nat.iter i next (next s)) = true) as Hre
    by (apply retrying_true; [done|lia]).
  rewrite (next_retrying _ _ _ Hp' Hre).
  rewrite Hrq, Htr in *. split.
  - intros Hnet. rewrite <- Hrq' in Hnet.
    destruct (attempt_downloaded _ u (target u) Hnet)
      as (H1 & H2 & H3 & H4 & H5 & H6 & H7 & H8).
    rewrite Hrm' in H3, H8.
    split_and!; [congruence | done | done | | lia | congruence | lia | done].
    rewrite H5, Ht', <- app_assoc. done.
  - intros created -> Hnet. rewrite <- Hrq' in Hnet.
    destruct (attempt_given_up _ u (target u) created Hnet)
      as (H1 & H2 & H3 & H4 & H5 & H6 & H7 & H8); [lia|].
    rewrite Hrm' in H3, H8.
    split_and!; [congruence | done | done | | congruence | lia | lia | done].
    rewrite H5, Ht', <- app_assoc. done.
Qed.




(** The work file at the next test is the text written on the way there,
    or the one of this test. *)
Lemma rewritten_next (s : state) :
  urls_file (next s)
  = match Rewrites.rewritten net s with
    | Some text => Some text
    | None => urls_file s
    end.
Proof.
  unfold step, Rewrites.rewritten.
  destruct (position s) as [|u name|]; [| |done].
  - destruct (remaining_urls s); [done|]. unfold pre_check.
    by destruct (path_exists _ _).
  - destruct (retrying s); [|done]. unfold attempt.
    destruct (net _ _) as [|created]; [done|].
    by destruct (_ <=? _).
Qed.

Lemma file_during_next (s : state) (file : option string) :
  Rewrites.file_during net s file →
  file = urls_file s ∨
  ∃ text content,
    urls_file (next s) = Some text ∧
    Rewrites.partly_written text content ∧ file = Some content.
Proof.
  intros [-> | (text & content & Hw & Hpart & ->)]; [by left|].
  right. exists text, content. by rewrite rewritten_next, Hw.
Qed.


(** *** What holds at every point of a run

    A run is over the unique URLs [urls], started with the work file
    [file0] and the download directory holding [dir0]. *)
Section Invariant.
Variable urls : list string.
Variable file0 : option string.
Variable dir0 : gset string.

Local Abbreviation inv := (inv url_path hash mapping urls file0 dir0).

Ltac count_events :=
  rewrite ?count_app; cbn; repeat case_decide; try done; cbn; try lia.

Lemma inv_goto (c : control) (s : state) :
  (∀ u name, c ≠ Attempting u name) → inv s → inv (goto c s).
Proof.
  intros Hc [H1 H2 H3 H4 H5 H6 H7 H8 H9]. split; try done.
  simpl. intros u name Heq. by destruct (Hc u name).
Qed.

Lemma kept_line_mono (s s' : state) (line : string) :
  (∀ p, p ∈ outcomes (trace s) → p ∈ outcomes (trace s')) →
  kept_line s line → kept_line s' line.
Proof.
  intros Hsub [H | (v & -> & H)]; [left | right]; eauto.
Qed.

Lemma inv_pre_check (s : state) (u : string) (rest : list string) :
  position s = LoopHead → remaining_urls s = u :: rest →
  inv s → inv (pre_check url_path hash mapping u s).
Proof.
  intros Hpos Hrem [H1 H2 H3 H4 H5 H6 H7 H8 H9]. unfold pre_check.
  destruct (path_exists (download_dir s) (target u)) eqn:Hex.
  - split; simpl.
    + rewrite outcomes_app, fmap_app, <- app_assoc, Hrem. simpl.
      by rewrite <- H1, Hrem.
    + done.
    + rewrite H3. count_events.
    + rewrite H4. count_events.
    + rewrite H5. count_events.
    + intros v. rewrite gets_app, app_nil_r. apply H6.
    + intros v o. rewrite outcomes_app. simpl.
      intros [Hin | [= -> ->]%list_elem_of_singleton]%elem_of_app;
        [eauto | done].
    + intros v name _. unfold retrying. simpl. by rewrite andb_false_r.
    + destruct file0; [|done]. destruct H9 as (kept & Hfile & Hkept).
      exists (kept ++ [u]). split.
      * rewrite Hfile, Hrem. simpl. by rewrite <- app_assoc.
      * apply Forall_app. split.
        -- eapply Forall_impl; [done|]. intros line. apply kept_line_mono.
           intros p. simpl. rewrite outcomes_app, elem_of_app. by left.
        -- apply Forall_singleton. left. simpl.
           rewrite outcomes_app, elem_of_app.
           right. by apply list_elem_of_singleton.
  - split; simpl; try done.
    + intros v name [= <- <-] _. split_and!; [by eexists | done |].
      by eapply path_exists_mono.
Qed.

Lemma inv_attempt (s : state) (u name : string) :
  position s = Attempting u name → retrying s = true →
  inv s → inv (attempt net u name s).
Proof.
  intros Hpos Hre [H1 H2 H3 H4 H5 H6 H7 H8 H9].
  destruct (H8 u name Hpos Hre) as ((rest & Hrem) & -> & Hex).
  assert (u ∈ urls) as Hu.
  { rewrite <- H1, Hrem, elem_of_app, elem_of_cons. by right; left. }
  unfold attempt. destruct (net (requests s) u) as [|created].
  - (* downloaded *)
    split; simpl.
    + rewrite outcomes_app, fmap_app, <- app_assoc, Hrem. simpl.
      by rewrite <- H1, Hrem.
    + etrans; [done | apply union_subseteq_l].
    + rewrite H3. count_events.
    + rewrite H4. count_events.
    + rewrite H5. count_events.
    + intros v. rewrite gets_app. simpl.
      intros [Hin | ->%list_elem_of_singleton]%elem_of_app; [eauto | done].
    + intros v o. rewrite outcomes_app. simpl.
      intros [Hin | [= -> ->]%list_elem_of_singleton]%elem_of_app;
        [eauto | done].
    + intros v name' _. unfold retrying. simpl. by rewrite andb_false_r.
    + destruct file0 as [?|]; [by exists [] |].
      destruct H9 as [_ ->]. by apply not_elem_of_nil in Hu.
  - assert (dir0 ⊆ (if created then download_dir s ∪ {[target u]}
                     else download_dir s)) as Hdir.
    { destruct created; [|done]. etrans; [done | apply union_subseteq_l]. }
    unfold retrying in Hre. apply andb_true_iff in Hre as [Hle Hds].
    destruct (retry_count s + 1 <=? max_retries) eqn:Hlast.
    + (* one more attempt *)
      split; simpl; try done.
      * by rewrite outcomes_app, app_nil_r.
      * rewrite H3. count_events.
      * rewrite H4. count_events.
      * rewrite H5. count_events.
      * intros v. rewrite gets_app. simpl.
        intros [Hin | ->%list_elem_of_singleton]%elem_of_app; [eauto | done].
      * intros v o. rewrite outcomes_app, app_nil_r. apply H7.
      * intros v name' Hpos' _. rewrite Hpos in Hpos'.
        injection Hpos' as <- <-. split_and!; [by eexists | done..].
      * destruct file0; [|done]. destruct H9 as (kept & Hfile & Hkept).
        exists kept. split; [done|].
        eapply Forall_impl; [done|]. intros line. apply kept_line_mono.
        intros p. simpl. by rewrite outcomes_app, app_nil_r.
    + (* given up *)
      split; simpl.
      * rewrite outcomes_app, fmap_app, <- app_assoc, Hrem. simpl.
        by rewrite <- H1, Hrem.
      * done.
      * rewrite H3. count_events.
      * rewrite H4. count_events.
      * rewrite H5. count_events.
      * intros v. rewrite gets_app. simpl.
        intros [Hin | ->%list_elem_of_singleton]%elem_of_app; [eauto | done].
      * intros v o. rewrite outcomes_app. simpl.
        intros [Hin | [= -> ->]%list_elem_of_singleton]%elem_of_app;
          [eauto | done].
      * intros v name' _. unfold retrying. simpl.
        apply Nat.leb_gt in Hlast. rewrite (proj2 (Nat.leb_gt _ _)); [done|].
        unfold max_retries in *. lia.
      * destruct file0 as [?|];
          [|destruct H9 as [_ ->]; by apply not_elem_of_nil in Hu].
        exists [failed_prefix +:+ u]. split.
        -- rewrite Hrem. simpl. by rewrite append_assoc.
        -- apply Forall_singleton. right. exists u. split; [done|]. simpl.
           rewrite outcomes_app, elem_of_app. right.
           by apply list_elem_of_singleton.
Qed.

Lemma inv_next (s : state) : inv s → inv (next s).
Proof.
  intros Hinv. unfold next, step.
  destruct (position s) as [|u name|] eqn:Hpos.
  - destruct (remaining_urls s) as [|u rest] eqn:Hrem.
    + by apply inv_goto.
    + by eapply inv_pre_check.
  - fold (retrying s). destruct (retrying s) eqn:Hre.
    + by apply inv_attempt.
    + by apply inv_goto.
  - done.
Qed.

Lemma inv_run (n : nat) (s : state) : inv s → inv (Nat.iter n next s).
Proof.
  intros Hinv. induction n as [|n IH]; [done|]. rewrite run_S.
  by apply inv_next.
Qed.

End Invariant.
End Run.

(** *** Runs of [download_files_from_urls] *)
Section Download.
Variable url_path : string → string.
Variable hash : string → Z.
Variable net : nat → string → response.

Local Abbreviation urls_of := (urls_of url_path).
Local Abbreviation mapping_of := (mapping_of url_path).
Local Abbreviation after := (after url_path hash net).
Local Abbreviation run_inv := (run_inv url_path hash).

Lemma start_inv (file : option string) (dir : gset string) :
  run_inv file dir (start url_path file dir).
Proof.
  unfold run_inv, urls_of, start.
  destruct file as [content|]; simpl; split; simpl; try done;
    try (by intros u Hu%not_elem_of_nil);
    try (by intros u o Hu%not_elem_of_nil).
  by exists [].
Qed.

Lemma after_inv (n : nat) (file : option string) (dir : gset string) :
  run_inv file dir (after n file dir).
Proof. apply inv_run, start_inv. Qed.

Lemma start_position (file : option string) (dir : gset string) :
  position (start url_path file dir) = LoopHead ∧
  remaining_urls (start url_path file dir) = urls_of file.
Proof. unfold start, urls_of. by destruct file. Qed.

Lemma download_files_from_urls_after (file : option string)
    (dir : gset string) :
  download_files_from_urls url_path hash net file dir
  = after (enough url_path file) file dir.
Proof. reflexivity. Qed.

(** The run is over after [enough] steps. *)
Lemma download_files_from_urls_exited (file : option string)
    (dir : gset string) :
  let s := download_files_from_urls url_path hash net file dir in
  position s = Exited ∧ remaining_urls s = [].
Proof.
  destruct (start_position file dir) as [Hpos Hrem].
  apply run_enough; [done|]. rewrite Hrem. unfold enough, urls_of. lia.
Qed.

(** When the run is over every unique URL has its outcome. *)
Lemma final_outcomes (file : option string) (dir : gset string) :
  let s := download_files_from_urls url_path hash net file dir in
  (outcomes (trace s)).*1 = urls_of file.
Proof.
  intros s. destruct (download_files_from_urls_exited file dir) as [_ Hrem].
  fold s in Hrem.
  pose proof (after_inv (enough url_path file) file dir) as Hinv.
  rewrite <- download_files_from_urls_after in Hinv. fold s in Hinv.
  rewrite <- (inv_urls _ _ _ _ _ _ _ Hinv). by rewrite Hrem, app_nil_r.
Qed.

(** C10. When [download_files_from_urls] returns, the terminal outcomes
    are those of the unique URLs, one each and in order; the three counters
    count them, so they add up to the number of unique URLs; and the value
    returned is [(success_count, fail_count)]. *)
Theorem every_url_one_outcome (file : option string) (dir : gset string) :
  let s := download_files_from_urls url_path hash net file dir in
  (outcomes (trace s)).*1 = urls_of file ∧
  NoDup (urls_of file) ∧
  success_count s = count Succeeded (trace s) ∧
  fail_count s = count FailedPermanently (trace s) ∧
  skipped_count s = count Skipped (trace s) ∧
  success_count s + fail_count s + skipped_count s = length (urls_of file) ∧
  returned s = (success_count s, fail_count s).
Proof.
  intros s. pose proof (final_outcomes file dir) as H1. fold s in H1.
  pose proof (after_inv (enough url_path file) file dir) as Hinv.
  rewrite <- download_files_from_urls_after in Hinv. fold s in Hinv.
  destruct Hinv as [_ _ H3 H4 H5 _ _ _ _].
  split_and!; try done.
  - apply process_url_file_NoDup.
  - rewrite H3, H4, H5, count_total, <- H1. by rewrite length_fmap.
Qed.

(** C9. A URL whose target exists when its turn comes is counted as
    skipped and popped, and the loop goes on with the next URL, with no
    request; in a whole run no request is ever made for a URL whose target
    was in the download directory from the start, and such a unique URL
    ends as skipped. *)
Theorem existing_target_not_requested :
  (∀ mapping s u rest,
     position s = LoopHead → remaining_urls s = u :: rest →
     path_exists (download_dir s) (target_name url_path hash mapping u) = true →
     let s' := Nat.iter 2 (step url_path hash net mapping) s in
     position s' = LoopHead ∧ remaining_urls s' = rest ∧
     trace s' = trace s ++ [Outcome u Skipped] ∧
     skipped_count s' = skipped_count s + 1 ∧
     success_count s' = success_count s ∧ fail_count s' = fail_count s ∧
     requests s' = requests s) ∧
  (∀ file dir n u,
     path_exists dir (target_name url_path hash (mapping_of file) u) = true →
     u ∉ gets (trace (after n file dir))) ∧
  (∀ file dir u,
     u ∈ urls_of file →
     path_exists dir (target_name url_path hash (mapping_of file) u) = true →
     (u, Skipped)
     ∈ outcomes (trace (download_files_from_urls url_path hash net file dir))).
Proof.
  split_and!.
  - intros mapping s u rest Hpos Hrem Hex.
    destruct (skip_url url_path hash net mapping s u rest Hpos Hrem Hex)
      as (? & ? & ? & ? & ? & ? & ? & _).
    done.
  - intros file dir n u Hex Hu.
    destruct (inv_gets _ _ _ _ _ _ _ (after_inv n file dir) u Hu) as [_ H].
    congruence.
  - intros file dir u Hu Hex.
    pose proof (final_outcomes file dir) as Hall. simpl in Hall.
    pose proof (after_inv (enough url_path file) file dir) as Hinv.
    rewrite <- download_files_from_urls_after in Hinv.
    rewrite <- Hall in Hu. apply list_elem_of_fmap in Hu as ([u' o] & -> & Hin).
    simpl in *. destruct (decide (o = Skipped)) as [-> | Hne]; [done|].
    pose proof (inv_attempted _ _ _ _ _ _ _ Hinv u' o Hin Hne) as H.
    congruence.
Qed.

(** C7. A URL that is not skipped leaves the attempt loop after [n]
    requests, [1 <= n <= 4], popped: each of the first [n - 1] requests
    fails and is followed by its wait, 30, 30 and 90 seconds in this order;
    the last one either succeeds or is the fourth and fails, and then the
    URL is counted as failed.  The answers decide: when the first [i]
    requests for the URL fail, [i <= 3], and the next one succeeds, the
    attempt loop makes these [i + 1] requests, waits after each of the
    [i] failures, and the URL is popped and counted as downloaded; when
    four requests fail, it makes these four, waits 30, 30 and 90 seconds
    after the first three, and the URL is popped and counted as failed,
    nothing more being requested for it.  And the run reaches the end of
    the outer loop, the list of remaining URLs empty. *)
Theorem attempts_bounded :
  (∀ mapping s u rest,
     position s = LoopHead → remaining_urls s = u :: rest →
     path_exists (download_dir s) (target_name url_path hash mapping u)
     = false →
     ∃ n o,
       let s' := Nat.iter (1 + n) (step url_path hash net mapping) s in
       1 ≤ n ≤ max_retries + 1 ∧
       retrying s' = false ∧ remaining_urls s' = rest ∧
       trace s'
       = trace s ++ attempt_events u (take (n - 1) [30; 30; 90]) o ∧
       (o = Succeeded ∧
        success_count s' = success_count s + 1 ∧
        fail_count s' = fail_count s
        ∨ o = FailedPermanently ∧ n = max_retries + 1 ∧
          success_count s' = success_count s ∧
          fail_count s' = fail_count s + 1)) ∧
  (∀ mapping s u rest i,
     position s = LoopHead → remaining_urls s = u :: rest →
     path_exists (download_dir s) (target_name url_path hash mapping u)
     = false →
     i ≤ max_retries →
     (∀ j, j < i → ∃ created, net (requests s + j) u = Failed created) →
     let s' := Nat.iter (2 + i) (step url_path hash net mapping) s in
     (net (requests s + i) u = Downloaded →
      retrying s' = false ∧ remaining_urls s' = rest ∧
      trace s' = trace s ++ attempt_events u (take i [30; 30; 90]) Succeeded ∧
      success_count s' = success_count s + 1 ∧
      fail_count s' = fail_count s ∧
      requests s' = requests s + i + 1) ∧
     (∀ created,
        i = max_retries → net (requests s + i) u = Failed created →
        retrying s' = false ∧ remaining_urls s' = rest ∧
        trace s'
        = trace s ++ attempt_events u [30; 30; 90] FailedPermanently ∧
        success_count s' = success_count s ∧
        fail_count s' = fail_count s + 1 ∧
        requests s' = requests s + max_retries + 1)) ∧
  (∀ file dir,
     let s := download_files_from_urls url_path hash net file dir in
     position s = Exited ∧ remaining_urls s = []).
Proof.
  split_and!.
  - intros mapping s u rest Hpos Hrem Hex.
    destruct (enter_attempts url_path hash net mapping s u rest Hpos Hrem Hex)
      as (Hp & Hds & Hrc & Hrm & Htr & _ & Hsc & Hfc).
    destruct (attempt_loop url_path hash net mapping 3 0 _ u _ rest
                eq_refl Hp Hds Hrc Hrm)
      as (n & o & Hn & _ & Hre & Hrm' & Ht & _ & Ho).
    exists n, o. cbv zeta. rewrite Nat.add_comm, run_add.
    change (Nat.iter 1 ?f ?x) with (f x).
    rewrite Htr, Hsc, Hfc in *. unfold max_retries.
    split_and!; try done; try lia.
  - intros mapping s u rest i Hpos Hrem Hex Hi Hfail.
    destruct (attempts_answered url_path hash net mapping s u rest i
                Hpos Hrem Hex Hi Hfail) as [Hok Hko].
    split.
    + intros Hnet. destruct (Hok Hnet) as (_ & ? & ? & ? & ? & ? & ? & _).
      done.
    + intros created Hmax Hnet.
      destruct (Hko created Hmax Hnet) as (_ & ? & ? & ? & ? & ? & ? & _).
      done.
  - intros file dir. apply download_files_from_urls_exited.
Qed.

Lemma requests_are_urls (file : option string) (dir : gset string)
    (n : nat) (u : string) :
  u ∈ gets (trace (after n file dir)) → u ∈ urls_of file.
Proof.
  intros Hu. by destruct (inv_gets _ _ _ _ _ _ _ (after_inv n file dir) u Hu).
Qed.


Lemma urls_of_clean (file : option string) (u : string) :
  u ∈ urls_of file → clean u.
Proof.
  pose proof (process_url_file_clean url_path file) as H.
  rewrite Forall_forall in H. apply H.
Qed.







(** What the attempt that ends the loop does, at any point of a run. *)
Lemma final_attempt (content : string) (dir : gset string) (n : nat)
    (u name : string) :
  let s := after n (Some content) dir in
  let s' := after (S n) (Some content) dir in
  position s = Attempting u name → retrying s = true →
  (net (requests s) u = Downloaded →
   remaining_urls s = u :: remaining_urls s' ∧
   outcomes (trace s') = outcomes (trace s) ++ [(u, Succeeded)] ∧
   urls_file s' = Some (write_lines (remaining_urls s'))) ∧
  (∀ created,
     net (requests s) u = Failed created → retry_count s = max_retries →
     remaining_urls s = u :: remaining_urls s' ∧
     outcomes (trace s') = outcomes (trace s) ++ [(u, FailedPermanently)] ∧
     urls_file s'
     = Some (write_lines ((failed_prefix +:+ u) :: remaining_urls s'))).
Proof.
  intros s s' Hpos Hre.
  destruct (inv_current _ _ _ _ _ _ _ (after_inv n (Some content) dir)
              u name Hpos Hre) as ((rest & Hrem) & _).
  fold s in Hrem.
  assert (s' = attempt net u name s) as ->.
  { subst s s'. unfold Executor.after, step_of. rewrite run_S.
    by apply next_retrying. }
  unfold attempt. split.
  - intros ->. simpl. rewrite Hrem, outcomes_app. done.
  - intros created -> ->. simpl. rewrite Hrem, outcomes_app.
    split_and!; [done..|]. simpl. by rewrite append_assoc.
Qed.

Lemma remaining_in_urls (file : option string) (dir : gset string) (n : nat)
    (u : string) :
  u ∈ remaining_urls (after n file dir) → u ∈ urls_of file.
Proof.
  intros Hu. rewrite <- (inv_urls _ _ _ _ _ _ _ (after_inv n file dir)).
  apply elem_of_app. by right.
Qed.

(** A download erases the tagged lines: the work file it writes has no
    line for a URL given up before, unless the tagged line is itself one
    of the unique URLs. *)
Lemma download_erases_failed (content : string) (dir : gset string)
    (n : nat) (u name v : string) :
  let s := after n (Some content) dir in
  let s' := after (S n) (Some content) dir in
  (v, FailedPermanently) ∈ outcomes (trace s) →
  failed_prefix +:+ v ∉ urls_of (Some content) →
  position s = Attempting u name → retrying s = true →
  net (requests s) u = Downloaded →
  ∃ content',
    urls_file s' = Some content' ∧ failed_prefix +:+ v ∉ read_urls content'.
Proof.
  intros s s' Hv Hfresh Hpos Hre Hnet.
  destruct (final_attempt content dir n u name Hpos Hre) as [H _].
  destruct (H Hnet) as (_ & _ & Hfile). fold s' in Hfile.
  eexists. split; [done|]. rewrite read_urls_write_lines.
  - intros Hin. by eapply Hfresh, remaining_in_urls.
  - apply Forall_forall. intros w Hw.
    by eapply urls_of_clean, remaining_in_urls.
Qed.







End Download.


(** *** Concrete runs *)

(** C1.  The code loses the URLs given up: a later download rewrites the
    work file without the tagged line.  With the work file listing [u1] and
    [u2], no target existing, the four requests for [u1] failing and the
    request for [u2] succeeding, the work file holds the tagged [u1] and
    then [u2] after the fourth failure, and is empty after the download of
    [u2]: [u1], counted as failed, is in no line of the final work file. *)
Theorem failed_line_overwritten :
  (∀ url_path hash net content dir n u name v,
     let s := after url_path hash net n (Some content) dir in
     let s' := after url_path hash net (S n) (Some content) dir in
     (v, FailedPermanently) ∈ outcomes (trace s) →
     failed_prefix +:+ v ∉ urls_of url_path (Some content) →
     position s = Attempting u name → retrying s = true →
     net (requests s) u = Downloaded →
     ∃ content',
       urls_file s' = Some content' ∧
       failed_prefix +:+ v ∉ read_urls content') ∧
  (let file := Some two_reports in
   let s5 := after urlparse_path no_hash four_failures 5 file ∅ in
   let s :=
     download_files_from_urls urlparse_path no_hash four_failures file ∅ in
   outcomes (trace s5) = [(u1, FailedPermanently)] ∧
   urls_file s5 = Some (write_lines [failed_prefix +:+ u1; u2]) ∧
   position s = Exited ∧
   outcomes (trace s) = [(u1, FailedPermanently); (u2, Succeeded)] ∧
   returned s = (1, 1) ∧
   urls_file s = Some EmptyString).
Proof.
  split.
  - apply download_erases_failed.
  - by vm_compute.
Qed.

Lemma failed_line_overwritten_witness :
  ∃ content',
    urls_file (after urlparse_path no_hash four_failures 8 (Some two_reports) ∅)
    = Some content' ∧
    failed_prefix +:+ u1 ∉ read_urls content'.
Proof.
  apply (proj1 failed_line_overwritten urlparse_path no_hash four_failures
           two_reports ∅ 7 u2 "report-F2.pdf" u1).
  - vm_compute. apply list_elem_of_here.
  - vm_compute. not_in_list.
  - by vm_compute.
  - by vm_compute.
  - by vm_compute.
Defined.




Lemma attempts_bounded_witness :
  let file := Some (write_lines [u1]) in
  let mapping := mapping_of urlparse_path file in
  let s := start urlparse_path file ∅ in
  trace (Nat.iter 5 (step urlparse_path no_hash always_failing mapping) s)
  = attempt_events u1 [30; 30; 90] FailedPermanently ∧
  trace (Nat.iter 2 (step urlparse_path no_hash always_ok mapping) s)
  = attempt_events u1 [] Succeeded.
Proof.
  split.
  - destruct (proj1 (proj2 (attempts_bounded urlparse_path no_hash
                              always_failing))
                (mapping_of urlparse_path (Some (write_lines [u1])))
                (start urlparse_path (Some (write_lines [u1])) ∅) u1 [] 3)
      as [_ H].
    + reflexivity.
    + by vm_compute.
    + by vm_compute.
    + reflexivity.
    + intros j _. by exists false.
    + destruct (H false) as (_ & _ & Ht & _); [reflexivity..|]. exact Ht.
  - destruct (proj1 (proj2 (attempts_bounded urlparse_path no_hash always_ok))
                (mapping_of urlparse_path (Some (write_lines [u1])))
                (start urlparse_path (Some (write_lines [u1])) ∅) u1 [] 0)
      as [H _].
    + reflexivity.
    + by vm_compute.
    + by vm_compute.
    + unfold max_retries. lia.
    + intros j Hj. lia.
    + destruct H as (_ & _ & Ht & _); [reflexivity|]. exact Ht.
Defined.

Lemma existing_target_not_requested_witness :
  let file := Some (write_lines [u1]) in
  let dir : gset string := {[ "report.pdf" ]} in
  let s := start urlparse_path file dir in
  trace (Nat.iter 2 (step urlparse_path no_hash always_ok
                       (mapping_of urlparse_path file)) s)
  = trace s ++ [Outcome u1 Skipped] ∧
  (u1 ∉ gets (trace (after urlparse_path no_hash always_ok 3 file dir))) ∧
  (u1, Skipped)
  ∈ outcomes (trace (download_files_from_urls urlparse_path no_hash always_ok
                       file dir)).
Proof.
  pose proof (existing_target_not_requested urlparse_path no_hash always_ok)
    as (H1 & H2 & H3).
  split_and!.
  - apply (H1 (mapping_of urlparse_path (Some (write_lines [u1])))
              (start urlparse_path (Some (write_lines [u1]))
                 {[ "report.pdf" ]}) u1 []).
    + reflexivity.
    + by vm_compute.
    + by vm_compute.
  - apply H2. by vm_compute.
  - apply H3.
    + vm_compute. apply list_elem_of_here.
    + by vm_compute.
Defined.



End ExecutorFacts.

(** ** More on the download executor *)
Module RunFacts.
Import PyStr PyStrFacts FileFacts Namer NamerFacts Executor ExecutorFacts.
Import Scenario Runs.

Lemma path_exists_mono_true (dir dir' : gset string) (name : string) :
  dir ⊆ dir' → path_exists dir name = true → path_exists dir' name = true.
Proof.
  intros Hsub H. destruct (path_exists dir' name) eqn:E; [done|].
  by rewrite (path_exists_mono _ _ _ Hsub E) in H.
Qed.

Section Run.
Variable url_path : string → string.
Variable hash : string → Z.
Variable net : nat → string → response.
Variable mapping : gmap string string.

Local Abbreviation target := (target_name url_path hash mapping).
Local Abbreviation next := (step url_path hash net mapping).

(** One URL, from the head of the outer loop back to it. *)
Lemma url_done (s : state) (u : string) (rest : list string) :
  position s = LoopHead → remaining_urls s = u :: rest →
  ∃ m evs, let s' := Nat.iter m next s in
    m ≤ 6 ∧ position s' = LoopHead ∧ remaining_urls s' = rest ∧
    trace s' = trace s ++ evs ∧ url_events u evs.
Proof.
  intros Hpos Hrem.
  destruct (path_exists (download_dir s) (target u)) eqn:Hex.
  - exists 2, [Outcome u Skipped].
    destruct (skip_url url_path hash net mapping s u rest Hpos Hrem Hex)
      as (? & ? & ? & _).
    split_and!; [lia | done.. | constructor].
  - destruct (enter_attempts url_path hash net mapping s u rest Hpos Hrem Hex)
      as (Hp & Hds & Hrc & Hrm & Htr & _).
    destruct (attempt_loop url_path hash net mapping 3 0 (next s) u
                (target u) rest eq_refl Hp Hds Hrc Hrm)
      as (n & o & Hn & Hp' & Hre & Hrm' & Ht & _ & Ho).
    exists (S (S n)), (attempt_events u (take (n - 1) [30; 30; 90]) o).
    cbv zeta. rewrite run_S, run_S_r.
    rewrite (next_leave_attempts _ _ _ _ _ _ _ Hp' Hre). simpl.
    rewrite Htr in Ht. split_and!; [lia | done.. |].
    destruct Ho as [(-> & _) | (-> & Hn4 & _)].
    + apply events_downloaded. unfold max_retries. lia.
    + replace (n - 1) with 3 by lia. apply events_failed.
Qed.

(** The whole loop, from its head to its end. *)
Lemma loop_done (s : state) :
  position s = LoopHead →
  ∃ m blocks, let s' := Nat.iter m next s in
    position s' = Exited ∧
    trace s' = trace s ++ concat blocks ∧
    Forall2 url_events (remaining_urls s) blocks.
Proof.
  remember (remaining_urls s) as urls eqn:Hrem. revert s Hrem.
  induction urls as [|u rest IH]; intros s Hrem Hpos.
  - exists 1, []. simpl. unfold step. rewrite Hpos, <- Hrem. simpl.
    split_and!; [done | by rewrite app_nil_r | constructor].
  - destruct (url_done s u rest Hpos (eq_sym Hrem))
      as (m & evs & _ & Hp & Hr & Ht & Hev).
    destruct (IH (Nat.iter m next s) (eq_sym Hr) Hp)
      as (m' & blocks & Hp' & Ht' & Hall).
    exists (m + m'), (evs :: blocks). cbv zeta. rewrite run_add.
    split_and!; [done | | by constructor].
    rewrite Ht', Ht. simpl. by rewrite app_assoc.
Qed.

Lemma exits_agree (s : state) (a b : nat) :
  position (Nat.iter a next s) = Exited →
  position (Nat.iter b next s) = Exited →
  Nat.iter a next s = Nat.iter b next s.
Proof.
  intros Ha Hb. destruct (decide (a ≤ b)).
  - replace b with (a + (b - a)) by lia.
    by rewrite run_add, (run_exited _ _ _ _ (b - a) _ Ha).
  - replace a with (b + (a - b)) by lia.
    by rewrite run_add, (run_exited _ _ _ _ (a - b) _ Hb).
Qed.

(** No step removes an entry of the download directory. *)
Lemma next_download_dir (s : state) : download_dir s ⊆ download_dir (next s).
Proof.
  unfold step. destruct (position s) as [|u name|]; [| |done].
  - destruct (remaining_urls s); [done|]. unfold pre_check.
    by destruct (path_exists _ _).
  - destruct (retrying s); [|done]. unfold attempt.
    destruct (net _ _) as [|[|]]; simpl;
      repeat (destruct (_ <=? _)); simpl;
      first [done | apply union_subseteq_l].
Qed.

(** [requests] counts the requests of the trace. *)
Lemma next_requests (s : state) :
  requests s = length (gets (trace s)) →
  requests (next s) = length (gets (trace (next s))).
Proof.
  intros H. unfold step. destruct (position s) as [|u name|]; [| |done].
  - destruct (remaining_urls s); [done|]. unfold pre_check.
    destruct (path_exists _ _); simpl; [|done].
    by rewrite gets_app, app_nil_r.
  - destruct (retrying s); [|done]. unfold attempt.
    destruct (net _ _) as [|created]; simpl;
      repeat (destruct (_ <=? _)); simpl;
      rewrite gets_app, length_app, H; simpl; lia.
Qed.

(** No step takes an event back. *)
Lemma next_trace (s : state) : ∃ evs, trace (next s) = trace s ++ evs.
Proof.
  unfold step. destruct (position s) as [|u name|].
  - destruct (remaining_urls s); [by exists []; rewrite app_nil_r|].
    unfold pre_check. destruct (path_exists _ _); simpl; [by eexists|].
    exists []. by rewrite app_nil_r.
  - destruct (retrying s); [|by exists []; rewrite app_nil_r].
    unfold attempt. destruct (net _ _) as [|created]; simpl;
      repeat (destruct (_ <=? _)); simpl; by eexists.
  - exists []. by rewrite app_nil_r.
Qed.

Section Invariant.
Variable urls : list string.
Variable file0 : option string.
Variable dir0 : gset string.

Local Abbreviation inv := (inv url_path hash mapping urls file0 dir0).

Local Abbreviation on_disk := (on_disk url_path hash mapping).

Lemma on_disk_next (s : state) : inv s → on_disk s → on_disk (next s).
Proof.
  intros Hinv Hdisk u o Hin Hne.
  pose proof (next_download_dir s) as Hsub.
  assert ((u, o) ∈ outcomes (trace s) →
          path_exists (download_dir (next s)) (target u) = true) as Hold.
  { intros H. eapply path_exists_mono_true; [done|]. by eapply Hdisk. }
  revert Hin Hsub Hold. unfold step.
  destruct (position s) as [|v name|] eqn:Hpos; [| |by auto].
  - destruct (remaining_urls s) as [|v rest] eqn:Hrem; [by auto|].
    unfold pre_check.
    destruct (path_exists (download_dir s) (target v)) eqn:Hex; simpl;
      [|by auto].
    rewrite outcomes_app. simpl.
    intros [Hin | [= -> ->]%list_elem_of_singleton]%elem_of_app _ Hold;
      [by auto | done].
  - destruct (retrying s) eqn:Hre; [|by auto].
    destruct (inv_current _ _ _ _ _ _ _ Hinv v name Hpos Hre)
      as (_ & -> & _).
    unfold attempt. destruct (net _ _) as [|created]; simpl.
    + rewrite outcomes_app. simpl.
      intros [Hin | [= -> ->]%list_elem_of_singleton]%elem_of_app _ Hold;
        [by auto|].
      unfold path_exists. rewrite orb_true_iff. right.
      apply bool_decide_eq_true, elem_of_union. right.
      by apply elem_of_singleton.
    + destruct (_ <=? _); simpl; rewrite outcomes_app; simpl.
      * rewrite app_nil_r. by auto.
      * intros [Hin | [= -> ->]%list_elem_of_singleton]%elem_of_app _ Hold;
          [by auto | done].
Qed.

Lemma kept_after_snoc (outs : list (string * download_outcome))
    (p : string * download_outcome) :
  kept_after (outs ++ [p]) = kept_step (kept_after outs) p.
Proof. unfold kept_after. by rewrite foldl_snoc. Qed.

Lemma file_tracked_next (s : state) :
  inv s → file_tracked s → file_tracked (next s).
Proof.
  intros Hinv. unfold file_tracked, step.
  destruct (position s) as [|v name|] eqn:Hpos; [| |done].
  - destruct (remaining_urls s) as [|v rest] eqn:Hrem; simpl;
      [by rewrite Hrem|].
    unfold pre_check.
    destruct (path_exists (download_dir s) (target v)) eqn:Hex; simpl;
      [|by rewrite Hrem].
    rewrite Hrem, outcomes_app. simpl. rewrite kept_after_snoc.
    unfold kept_step. simpl. by rewrite <- app_assoc.
  - destruct (retrying s) eqn:Hre; [|done].
    destruct (inv_current _ _ _ _ _ _ _ Hinv v name Hpos Hre)
      as ((rest & Hrem) & _).
    unfold attempt. destruct (net _ _) as [|created]; simpl.
    + intros _. rewrite Hrem, outcomes_app. simpl.
      by rewrite kept_after_snoc.
    + destruct (_ <=? _); simpl; rewrite outcomes_app; simpl.
      * by rewrite app_nil_r.
      * intros _. rewrite Hrem, kept_after_snoc. simpl.
        by rewrite append_assoc.
Qed.

Local Abbreviation fresh_name := (fresh_name url_path hash mapping).
Local Abbreviation shared_skipped := (shared_skipped url_path hash mapping).

Lemma fresh_name_next (s : state) :
  on_disk s → fresh_name s → fresh_name (next s).
Proof.
  intros Hdisk Hfresh u name. unfold step.
  destruct (position s) as [|v name'|] eqn:Hpos; [| |by rewrite Hpos].
  - destruct (remaining_urls s) as [|v rest] eqn:Hrem; [done|].
    unfold pre_check.
    destruct (path_exists (download_dir s) (target v)) eqn:Hex; simpl.
    + unfold retrying. simpl. by rewrite andb_false_r.
    + intros [= <- <-] _ w o Hin Hne Heq.
      pose proof (Hdisk w o Hin Hne) as Hw. by rewrite Heq, Hex in Hw.
  - destruct (retrying s) eqn:Hre; [|done].
    unfold attempt. destruct (net _ _) as [|created]; simpl.
    + unfold retrying. simpl. by rewrite andb_false_r.
    + destruct (retry_count s + 1 <=? max_retries) eqn:Hle; simpl.
      * rewrite Hpos. intros [= <- <-] _ w o. rewrite outcomes_app. simpl.
        rewrite app_nil_r. by apply (Hfresh _ _ Hpos Hre).
      * unfold retrying. simpl. by rewrite Hle.
Qed.

Lemma shared_skipped_snoc (outs : list (string * download_outcome))
    (u : string) (o : download_outcome) :
  shared_skipped outs →
  (o ≠ Skipped →
   ∀ v o', (v, o') ∈ outs → o' ≠ FailedPermanently → target v ≠ target u) →
  shared_skipped (outs ++ [(u, o)]).
Proof.
  intros Hold Hnew i j v' o1 u' o2 Hij Hi Hj Hne Heq.
  apply lookup_snoc_Some in Hj as [[Hlt Hj] | [-> [= <- <-]]].
  - apply lookup_snoc_Some in Hi as [[_ Hi] | [-> _]]; [|lia].
    by apply (Hold i j v' o1 u' o2).
  - apply lookup_snoc_Some in Hi as [[_ Hi] | [Hi _]]; [|lia].
    destruct (decide (o = Skipped)) as [|Hs]; [done|].
    by destruct (Hnew Hs v' o1 (list_elem_of_lookup_2 _ _ _ Hi) Hne).
Qed.

Lemma shared_skipped_next (s : state) :
  inv s → fresh_name s →
  shared_skipped (outcomes (trace s)) →
  shared_skipped (outcomes (trace (next s))).
Proof.
  intros Hinv Hfresh Hold. unfold step.
  destruct (position s) as [|v name|] eqn:Hpos; [| |done].
  - destruct (remaining_urls s) as [|v rest] eqn:Hrem; [done|].
    unfold pre_check.
    destruct (path_exists (download_dir s) (target v)) eqn:Hex; simpl;
      [|done].
    rewrite outcomes_app. simpl. by apply shared_skipped_snoc.
  - destruct (retrying s) eqn:Hre; [|done].
    destruct (inv_current _ _ _ _ _ _ _ Hinv v name Hpos Hre)
      as (_ & Hname & _).
    pose proof (Hfresh v name Hpos Hre) as Hother. rewrite Hname in Hother.
    unfold attempt. destruct (net _ _) as [|created]; simpl.
    + rewrite outcomes_app. simpl. by apply shared_skipped_snoc.
    + destruct (_ <=? _); simpl; rewrite outcomes_app; simpl.
      * by rewrite app_nil_r.
      * by apply shared_skipped_snoc.
Qed.

End Invariant.
End Run.
Lemma url_events_totals (u : string) (evs : list event) :
  url_events u evs →
  count Succeeded evs + 4 * count FailedPermanently evs ≤ length (gets evs) ∧
  length (gets evs) ≤ 4 * (count Succeeded evs + count FailedPermanently evs) ∧
  150 * count FailedPermanently evs ≤ sum_list (sleeps evs) ∧
  sum_list (sleeps evs)
  ≤ 150 * (count Succeeded evs + count FailedPermanently evs).
Proof.
  intros [|n Hn|].
  - vm_compute. lia.
  - unfold max_retries in Hn.
    destruct n as [|[|[|[|n]]]]; [vm_compute; lia.. | lia].
  - vm_compute. lia.
Qed.

Lemma url_events_shape (u : string) (evs : list event) :
  url_events u evs →
  ∃ o k, outcomes evs = [(u, o)] ∧ gets evs = replicate k u ∧
         k ≤ 4 ∧ (k = 0 ↔ o = Skipped) ∧ (o = FailedPermanently → k = 4).
Proof.
  intros [|n Hn|].
  - exists Skipped, 0. split_and!; first [done | lia].
  - unfold max_retries in Hn. exists Succeeded, (S n).
    destruct n as [|[|[|[|n]]]]; [| | | | lia];
      split_and!; first [done | lia | split; [lia | done]].
  - exists FailedPermanently, 4.
    split_and!; first [done | lia | split; [lia | done]].
Qed.

Lemma blocks_totals (urls : list string) (blocks : list (list event)) :
  Forall2 url_events urls blocks →
  let t := concat blocks in
  count Succeeded t + 4 * count FailedPermanently t ≤ length (gets t) ∧
  length (gets t) ≤ 4 * (count Succeeded t + count FailedPermanently t) ∧
  150 * count FailedPermanently t ≤ sum_list (sleeps t) ∧
  sum_list (sleeps t) ≤ 150 * (count Succeeded t + count FailedPermanently t).
Proof.
  induction 1 as [|u evs urls blocks Hev _ IH]; simpl; [vm_compute; lia|].
  rewrite !count_app, gets_app, sleeps_app, length_app, sum_list_with_app.
  pose proof (url_events_totals u evs Hev). simpl in IH. lia.
Qed.

(** *** Runs of [download_files_from_urls] *)
Section Download.
Variable url_path : string → string.
Variable hash : string → Z.
Variable net : nat → string → response.

Local Abbreviation urls_of := (urls_of url_path).
Local Abbreviation mapping_of := (mapping_of url_path).
Local Abbreviation after := (after url_path hash net).
Local Abbreviation finished := (download_files_from_urls url_path hash net).

Lemma after_S (n : nat) (file : option string) (dir : gset string) :
  after (S n) file dir
  = step url_path hash net (mapping_of file) (after n file dir).
Proof. reflexivity. Qed.

Lemma after_add (n m : nat) (file : option string) (dir : gset string) :
  after (n + m) file dir
  = Nat.iter m (step url_path hash net (mapping_of file)) (after n file dir).
Proof. apply run_add. Qed.

Lemma finished_blocks (file : option string) (dir : gset string) :
  ∃ blocks,
    trace (finished file dir) = concat blocks ∧
    Forall2 url_events (urls_of file) blocks.
Proof.
  destruct (start_position url_path file dir) as [Hpos Hrem].
  destruct (loop_done url_path hash net (mapping_of file) _ Hpos)
    as (m & blocks & Hex & Ht & Hall).
  destruct (download_files_from_urls_exited url_path hash net file dir)
    as [Hex' _].
  exists blocks. rewrite Hrem in Hall. split; [|done].
  assert (trace (start url_path file dir) = []) as Hnil by by destruct file.
  rewrite Hnil in Ht. simpl in Ht. rewrite <- Ht. f_equal.
  by apply (exits_agree url_path hash net (mapping_of file)).
Qed.

(** X1. In a finished run the trace is made of one group of events per
    unique URL, in the order of the list: the URL is skipped; or requested
    up to four times, each request after a random delay and each failure
    but the last followed by its wait of 30, 30, 90 seconds, and then
    downloaded or, after four failures, given up.  So a group holds one
    outcome, of its URL, and at most four requests, all for its URL, none
    when the URL is skipped. *)
Theorem finished_trace (file : option string) (dir : gset string) :
  ∃ blocks,
    trace (finished file dir) = concat blocks ∧
    Forall2 url_events (urls_of file) blocks ∧
    Forall2 (λ u evs, ∃ o k,
               outcomes evs = [(u, o)] ∧ gets evs = replicate k u ∧
               k ≤ 4 ∧ (k = 0 ↔ o = Skipped) ∧
               (o = FailedPermanently → k = 4))
            (urls_of file) blocks.
Proof.
  destruct (finished_blocks file dir) as (blocks & Ht & Hall).
  exists blocks. split_and!; [done..|].
  eapply Forall2_impl; [done|]. intros u evs Hev.
  destruct (url_events_shape u evs Hev) as (o & k & ?). by exists o, k.
Qed.

Lemma after_requests (n : nat) (file : option string) (dir : gset string) :
  requests (after n file dir) = length (gets (trace (after n file dir))).
Proof.
  induction n as [|n IH]; [by destruct file|].
  rewrite after_S. by apply next_requests.
Qed.

(** X2. A finished run has made at least one request per download and four
    per permanent failure, and at most four per download or failure; it
    has waited between attempts 150 seconds per permanent failure and at
    most 150 per download (the random delays apart). *)
Theorem finished_totals (file : option string) (dir : gset string) :
  let s := finished file dir in
  requests s = length (gets (trace s)) ∧
  success_count s + 4 * fail_count s ≤ requests s ∧
  requests s ≤ 4 * (success_count s + fail_count s) ∧
  150 * fail_count s ≤ sum_list (sleeps (trace s)) ∧
  sum_list (sleeps (trace s)) ≤ 150 * (success_count s + fail_count s).
Proof.
  intros s. destruct (finished_blocks file dir) as (blocks & Ht & Hall).
  fold s in Ht.
  pose proof (after_inv url_path hash net (enough url_path file) file dir)
    as Hinv.
  rewrite <- download_files_from_urls_after in Hinv. fold s in Hinv.
  rewrite (inv_success _ _ _ _ _ _ _ Hinv), (inv_fail _ _ _ _ _ _ _ Hinv).
  assert (requests s = length (gets (trace s))) as ->.
  { subst s. rewrite download_files_from_urls_after. apply after_requests. }
  rewrite Ht. split; [done|]. by apply (blocks_totals (urls_of file)).
Qed.

(** X3. Wherever a run is stopped, the URLs that have an outcome followed by
    the remaining URLs are the unique URLs in their order, each counter
    counts its outcomes, and the three counters and the number of
    remaining URLs add up to the number of unique URLs. *)
Theorem progress_at_any_point (file : option string) (dir : gset string)
    (n : nat) :
  let s := after n file dir in
  (outcomes (trace s)).*1 ++ remaining_urls s = urls_of file ∧
  success_count s = count Succeeded (trace s) ∧
  fail_count s = count FailedPermanently (trace s) ∧
  skipped_count s = count Skipped (trace s) ∧
  success_count s + fail_count s + skipped_count s
  + length (remaining_urls s) = length (urls_of file).
Proof.
  intros s. destruct (after_inv url_path hash net n file dir)
    as [H1 _ H3 H4 H5 _ _ _ _].
  fold s in H1, H3, H4, H5. split_and!; [done..|].
  rewrite H3, H4, H5, count_total, <- H1, length_app. by rewrite length_fmap.
Qed.

Lemma after_on_disk (n : nat) (file : option string) (dir : gset string) :
  on_disk url_path hash (mapping_of file) (after n file dir).
Proof.
  induction n as [|n IH].
  - intros u o Hin. destruct file; by apply not_elem_of_nil in Hin.
  - rewrite after_S. eapply on_disk_next; [|done].
    apply (after_inv url_path hash net).
Qed.

Lemma after_grows (n m : nat) (file : option string) (dir : gset string) :
  download_dir (after n file dir) ⊆ download_dir (after (n + m) file dir) ∧
  ∃ evs, trace (after (n + m) file dir) = trace (after n file dir) ++ evs.
Proof.
  induction m as [|m [IH1 (evs & IH2)]].
  - rewrite Nat.add_0_r. split; [done|]. exists []. by rewrite app_nil_r.
  - replace (n + S m) with (S (n + m)) by lia. rewrite after_S. split.
    + etrans; [done|]. apply next_download_dir.
    + destruct (next_trace url_path hash net (mapping_of file)
                  (after (n + m) file dir)) as (evs' & ->).
      exists (evs ++ evs'). by rewrite IH2, app_assoc.
Qed.

(** X4. The run never removes an entry of the download directory nor an
    event already made; and from the moment a URL is skipped or
    downloaded, its target exists in the download directory. *)
Theorem targets_on_disk (file : option string) (dir : gset string)
    (n m : nat) :
  let s := after n file dir in
  let s' := after (n + m) file dir in
  dir ⊆ download_dir s ∧
  download_dir s ⊆ download_dir s' ∧
  (∃ evs, trace s' = trace s ++ evs) ∧
  (∀ u o,
     (u, o) ∈ outcomes (trace s) → o ≠ FailedPermanently →
     path_exists (download_dir s')
       (target_name url_path hash (mapping_of file) u) = true).
Proof.
  intros s s'. destruct (after_grows n m file dir) as [Hdir (evs & Ht)].
  fold s s' in Hdir, Ht. split_and!; [|done|by exists evs|].
  - apply (inv_dir _ _ _ _ _ _ _ (after_inv url_path hash net n file dir)).
  - intros u o Hin Hne. apply (after_on_disk (n + m) file dir u o); [|done].
    fold s'. rewrite Ht, outcomes_app. apply elem_of_app. by left.
Qed.

(** X5. A URL whose file name is cleaned to the empty name, ["."] or [".."]
    is never requested, whatever the download directory holds, and a run
    ends with it counted as skipped: the path built from such a name is
    the download directory or its parent, which exist. *)
Theorem unusable_name_skipped (file : option string) (dir : gset string)
    (u : string) :
  target_name url_path hash (mapping_of file) u
  ∈ [EmptyString; "."; ".."] →
  (∀ n, u ∉ gets (trace (after n file dir))) ∧
  (u ∈ urls_of file → (u, Skipped) ∈ outcomes (trace (finished file dir))).
Proof.
  intros Hname.
  assert (∀ d, path_exists d (target_name url_path hash (mapping_of file) u)
               = true) as Hex.
  { intros d. unfold path_exists. by rewrite bool_decide_eq_true_2. }
  split.
  - intros n Hu.
    destruct (inv_gets _ _ _ _ _ _ _ (after_inv url_path hash net n file dir)
                u Hu) as [_ H].
    by rewrite Hex in H.
  - intros Hu.
    pose proof (final_outcomes url_path hash net file dir) as Hall.
    simpl in Hall.
    pose proof (after_inv url_path hash net (enough url_path file) file dir)
      as Hinv.
    rewrite <- download_files_from_urls_after in Hinv.
    rewrite <- Hall in Hu.
    apply list_elem_of_fmap in Hu as ([u' o] & -> & Hin). simpl in *.
    destruct (decide (o = Skipped)) as [-> | Hne]; [done|].
    pose proof (inv_attempted _ _ _ _ _ _ _ Hinv u' o Hin Hne) as H.
    by rewrite Hex in H.
Qed.

Lemma after_fresh (n : nat) (file : option string) (dir : gset string) :
  fresh_name url_path hash (mapping_of file) (after n file dir) ∧
  shared_skipped url_path hash (mapping_of file)
    (outcomes (trace (after n file dir))).
Proof.
  induction n as [|n [IH1 IH2]].
  - split; [by destruct file|]. intros i j v o u o' _ Hi. by destruct file.
  - rewrite after_S. split.
    + apply fresh_name_next; [apply after_on_disk | done].
    + eapply shared_skipped_next; [|done..].
      apply (after_inv url_path hash net).
Qed.

(** X8. Wherever a run is stopped: a URL that comes after one skipped or
    downloaded under the same target name has been skipped, so no download
    of a run writes over the file of an earlier one. *)
Theorem same_target_skipped (file : option string) (dir : gset string)
    (n i j : nat) (v u : string) (o o' : download_outcome) :
  let s := after n file dir in
  let target := target_name url_path hash (mapping_of file) in
  i < j →
  outcomes (trace s) !! i = Some (v, o) →
  outcomes (trace s) !! j = Some (u, o') →
  o ≠ FailedPermanently → target v = target u →
  o' = Skipped.
Proof.
  intros s target. destruct (after_fresh n file dir) as [_ H]. apply H.
Qed.

Lemma after_file_tracked (n : nat) (content : string) (dir : gset string) :
  file_tracked (after n (Some content) dir).
Proof.
  induction n as [|n IH]; [done|].
  rewrite after_S. eapply file_tracked_next; [|done].
  apply (after_inv url_path hash net).
Qed.

(** X6. At every loop test of a run over an existing work file, the work
    file holds the lines that the outcomes so far leave, followed by the
    remaining URLs: a skip adds the URL skipped to the lines kept, a
    download drops them all, a permanent failure replaces them by the
    tagged URL.  Between two loop tests the work file holds what it holds
    at the first, or, while it is rewritten, a beginning of what it holds
    at the second.  A missing work file stays missing. *)
Theorem work_file_tracked (dir : gset string) (n : nat) :
  (∀ content,
     let s := after n (Some content) dir in
     urls_file s
     = Some (write_lines
               (kept_after (outcomes (trace s)) ++ remaining_urls s))) ∧
  (∀ content file,
     let s := after n (Some content) dir in
     let s' := after (S n) (Some content) dir in
     Rewrites.file_during net s file →
     file = Some (write_lines
                    (kept_after (outcomes (trace s)) ++ remaining_urls s))
     ∨ ∃ written,
         Rewrites.partly_written
           (write_lines
              (kept_after (outcomes (trace s')) ++ remaining_urls s'))
           written ∧
         file = Some written) ∧
  urls_file (after n None dir) = None ∧
  (∀ outs u,
     kept_after (outs ++ [(u, Skipped)]) = kept_after outs ++ [u] ∧
     kept_after (outs ++ [(u, Succeeded)]) = [] ∧
     kept_after (outs ++ [(u, FailedPermanently)]) = [failed_prefix +:+ u]).
Proof.
  split_and!.
  - intros content. apply after_file_tracked.
  - intros content file s s' Hfile.
    pose proof (after_file_tracked n content dir) as Hs.
    pose proof (after_file_tracked (S n) content dir) as Hs'.
    unfold file_tracked in Hs, Hs'. fold s in Hs. fold s' in Hs'.
    destruct (file_during_next url_path hash net (mapping_of (Some content))
                s file Hfile) as [-> | (text & written & Ht & Hpart & ->)].
    + by left.
    + right. exists written. split; [|done].
      change (step url_path hash net (mapping_of (Some content)) s)
        with s' in Ht.
      rewrite Hs' in Ht. by injection Ht as <-.
  - destruct (inv_file _ _ _ _ _ _ _ (after_inv url_path hash net n None dir))
      as [H _].
    done.
  - intros outs u. by rewrite !kept_after_snoc.
Qed.

End Download.

(** X7. When the last unique URL of a run is downloaded, the run leaves an
    empty work file, and a run over that work file has nothing to do: it
    makes no request and gives no outcome. *)
Theorem last_download_empties_file (url_path : string → string)
    (hash : string → Z) (net : nat → string → response) (content : string)
    (dir : gset string) (u : string) :
  let s := download_files_from_urls url_path hash net (Some content) dir in
  last (outcomes (trace s)) = Some (u, Succeeded) →
  urls_file s = Some EmptyString ∧
  (∀ hash2 net2 dir2 m,
     let s2 := after url_path hash2 net2 m (urls_file s) dir2 in
     gets (trace s2) = [] ∧ outcomes (trace s2) = [] ∧
     returned s2 = (0, 0)).
Proof.
  intros s [outs Hlast]%last_Some.
  assert (urls_file s = Some EmptyString) as Hfile.
  { subst s. rewrite download_files_from_urls_after in *.
    pose proof (after_file_tracked url_path hash net
                  (enough url_path (Some content)) content dir) as H.
    unfold file_tracked in H. rewrite H, Hlast, kept_after_snoc.
    rewrite <- download_files_from_urls_after.
    by destruct (download_files_from_urls_exited url_path hash net
                   (Some content) dir) as [_ ->]. }
  split; [done|]. intros hash2 net2 dir2 m s2. subst s2. rewrite Hfile.
  destruct (after_inv url_path hash2 net2 m (Some EmptyString) dir2)
    as [H1 _ H3 H4 _ _ _ _ _].
  change (urls_of url_path (Some EmptyString)) with (@nil string) in H1.
  apply app_eq_nil in H1 as [H1%fmap_nil_inv _].
  split_and!; [|done|].
  - apply elem_of_nil_inv. intros v Hv.
    apply (requests_are_urls url_path hash2 net2) in Hv.
    change (v ∈ @nil string) in Hv. by apply not_elem_of_nil in Hv.
  - unfold returned. rewrite H3, H4. unfold count. by rewrite H1.
Qed.

Lemma targets_on_disk_witness :
  let file := Some two_reports in
  (u1, Succeeded)
  ∈ outcomes (trace (after urlparse_path no_hash always_ok 2 file ∅)) ∧
  path_exists
    (download_dir (after urlparse_path no_hash always_ok (2 + 11) file ∅))
    (target_name urlparse_path no_hash (mapping_of urlparse_path file) u1)
  = true.
Proof.
  assert ((u1, Succeeded)
          ∈ outcomes (trace (after urlparse_path no_hash always_ok 2
                               (Some two_reports) ∅))) as Hin.
  { vm_compute. apply list_elem_of_here. }
  split; [done|].
  destruct (targets_on_disk urlparse_path no_hash always_ok
              (Some two_reports) ∅ 2 11) as (_ & _ & _ & H).
  by apply (H u1 Succeeded).
Defined.

Lemma unusable_name_skipped_witness :
  let file := Some (write_lines [dots_url]) in
  (dots_url
   ∉ gets (trace (after urlparse_path no_hash always_ok 3 file ∅))) ∧
  (dots_url, Skipped)
  ∈ outcomes (trace (download_files_from_urls urlparse_path no_hash
                       always_ok file ∅)).
Proof.
  destruct (unusable_name_skipped urlparse_path no_hash always_ok
              (Some (write_lines [dots_url])) ∅ dots_url) as [H1 H2].
  - vm_compute. do 2 apply list_elem_of_further. apply list_elem_of_here.
  - split; [apply H1 | apply H2]. vm_compute. apply list_elem_of_here.
Defined.

Lemma last_download_empties_file_witness :
  let s := download_files_from_urls urlparse_path no_hash always_ok
             (Some two_reports) ∅ in
  urls_file s = Some EmptyString ∧
  gets (trace (after urlparse_path no_hash always_ok 5 (urls_file s) ∅)) = [].
Proof.
  destruct (last_download_empties_file urlparse_path no_hash always_ok
              two_reports ∅ u2) as [H1 H2]; [by vm_compute|].
  split; [done | apply H2].
Defined.

Lemma same_target_skipped_witness :
  let s := after urlparse_path no_hash always_ok 13 (Some same_token) ∅ in
  ∃ o, outcomes (trace s) !! 1 = Some (u3, o) ∧ o = Skipped.
Proof.
  exists Skipped. split; [by vm_compute|].
  apply (same_target_skipped urlparse_path no_hash always_ok
           (Some same_token) ∅ 13 0 1 u1 u3 Succeeded Skipped);
    [lia | by vm_compute..].
Defined.

End RunFacts.

(** ** More on the file names *)
Module NamingFacts.
Import PyStr PyStrFacts FileFacts Namer NamerFacts Executor Scenario Names.

Lemma rsplit1_None (sep : ascii) (s : string) :
  rsplit1 sep s = None ↔ contains sep s = false.
Proof.
  induction s as [|c r IH]; simpl; [done|].
  destruct (rsplit1 sep r) as [[b e]|].
  - destruct IH as [_ IH]. split; [done|].
    intros [_ H]%orb_false_iff. by specialize (IH H).
  - destruct IH as [IH _]. rewrite (IH eq_refl), orb_false_r.
    by destruct (Ascii.eqb c sep).
Qed.

Lemma rsplit1_Some (sep : ascii) (s b e : string) :
  rsplit1 sep s = Some (b, e) →
  s = b +:+ String sep e ∧ contains sep e = false.
Proof.
  revert b e. induction s as [|c r IH]; intros b e; simpl; [done|].
  destruct (rsplit1 sep r) as [[b' e']|] eqn:E.
  - intros [= <- <-]. destruct (IH b' e' eq_refl) as [-> He].
    by rewrite append_cons.
  - destruct (Ascii.eqb c sep) eqn:Ec; [|done]. intros [= <- <-].
    apply Ascii.eqb_eq in Ec as ->. rewrite append_nil.
    split; [done|]. by apply rsplit1_None.
Qed.

Lemma span_spec (p : ascii → bool) (s : string) :
  s = (span p s).1 +:+ (span p s).2 ∧
  all_chars p (span p s).1 = true ∧
  match (span p s).2 with String c _ => p c = false | EmptyString => True end.
Proof.
  induction s as [|c r (IH1 & IH2 & IH3)]; simpl; [done|].
  destruct (p c) eqn:Hc; [|by rewrite append_nil; simpl].
  destruct (span p r) as [run rest]. simpl in *.
  rewrite append_cons, <- IH1. simpl. by rewrite Hc.
Qed.

Lemma span_app (p : ascii → bool) (run rest : string) :
  all_chars p run = true →
  match rest with String c _ => p c = false | EmptyString => True end →
  span p (run +:+ rest) = (run, rest).
Proof.
  intros Hrun Hrest. induction run as [|c r IH].
  - rewrite append_nil. destruct rest as [|c r]; [done|]. simpl.
    by rewrite Hrest.
  - rewrite append_cons. simpl in *.
    apply andb_true_iff in Hrun as [-> Hr]. by rewrite (IH Hr).
Qed.

Lemma startswith_spec (p s : string) :
  startswith p s = true ↔ ∃ r, s = p +:+ r.
Proof.
  revert s. induction p as [|a p IH]; intros s; simpl.
  - split; [|done]. intros _. exists s. by rewrite append_nil.
  - destruct s as [|b s].
    + split; [done|]. intros [r Hr]. by rewrite append_cons in Hr.
    + rewrite andb_true_iff, Ascii.eqb_eq, IH. split.
      * intros [-> [r ->]]. exists r. by rewrite append_cons.
      * intros [r Hr]. rewrite append_cons in Hr.
        injection Hr as -> ->. eauto.
Qed.

Lemma match_id_at_sound (s token : string) :
  match_id_at s = Some token →
  ∃ group1 after,
    id_token group1 ∧ id_token token ∧
    s = "/" +:+ group1 +:+ "-" +:+ token +:+ "/download/" +:+ after.
Proof.
  destruct s as [|c s1]; [done|]. unfold match_id_at.
  destruct (Ascii.eqb c "/") eqn:Ec; [|done].
  apply Ascii.eqb_eq in Ec as ->.
  destruct (span_spec is_id_char s1) as (H1 & H2 & _).
  destruct (span is_id_char s1) as [group1 s2]. simpl in H1, H2.
  destruct (is_empty group1) eqn:E1; [done|].
  destruct s2 as [|d s3]; [done|].
  destruct (Ascii.eqb d "-") eqn:Ed; [|done].
  apply Ascii.eqb_eq in Ed as ->.
  destruct (span_spec is_id_char s3) as (H3 & H4 & _).
  destruct (span is_id_char s3) as [group2 s4]. simpl in H3, H4.
  destruct (is_empty group2) eqn:E2; [done|].
  destruct (startswith "/download/" s4) eqn:Es; [|done].
  intros [= <-]. apply startswith_spec in Es as [after ->].
  exists group1, after. apply is_empty_false in E1, E2.
  split_and!; [done..|]. by rewrite H1, H3.
Qed.

Lemma match_id_at_complete (group1 token after : string) :
  id_token group1 → id_token token →
  match_id_at ("/" +:+ group1 +:+ "-" +:+ token +:+ "/download/" +:+ after)
  = Some token.
Proof.
  intros [E1 H1] [E2 H2].
  change ("/" +:+ group1 +:+ "-" +:+ token +:+ "/download/" +:+ after)
    with (String "/" (group1 +:+ String "-"
                        (token +:+ "/download/" +:+ after))).
  unfold match_id_at.
  rewrite (proj2 (Ascii.eqb_eq _ _) eq_refl).
  rewrite (span_app is_id_char group1 _ H1) by done.
  rewrite (proj2 (is_empty_false _) E1).
  rewrite (proj2 (Ascii.eqb_eq _ _) eq_refl).
  change (token +:+ "/download/" +:+ after)
    with (token +:+ String "/" ("download/" +:+ after)).
  rewrite (span_app is_id_char token _ H2) by done.
  rewrite (proj2 (is_empty_false _) E2).
  change (String "/" ("download/" +:+ after)) with ("/download/" +:+ after).
  by rewrite (proj2 (startswith_spec _ _) (ex_intro _ after eq_refl)).
Qed.

Lemma search_id_unfold (path : string) :
  search_id path
  = match match_id_at path with
    | Some group2 => Some group2
    | None =>
        match path with
        | String _ r => search_id r
        | EmptyString => None
        end
    end.
Proof. by destruct path. Qed.

(** X9. The id suffix is taken from a match of the pattern
    [/([A-Z0-9]+)-([A-Z0-9]+)/download/] in the path: when the search
    gives a token, the path holds a slash, a non-empty run of capitals and
    digits, a hyphen, the token, itself such a run, and [/download/]; and
    the search gives a token whenever the path has such a part. *)
Theorem search_id_matches (path : string) :
  (∀ token, search_id path = Some token → id_match path token) ∧
  (∀ token, id_match path token → is_Some (search_id path)).
Proof.
  split.
  - intros token. induction path as [|c r IH].
    + by rewrite search_id_unfold.
    + rewrite search_id_unfold.
      destruct (match_id_at (String c r)) as [t|] eqn:E.
      * intros [= ->].
        destruct (match_id_at_sound _ _ E) as (g & a & ? & ? & Hs).
        exists EmptyString, g, a. by rewrite append_nil.
      * intros (b & g & a & ? & ? & ->)%IH.
        exists (String c b), g, a. by rewrite append_cons.
  - intros token (before & g & a & Hg & Ht & ->).
    induction before as [|c b IH].
    + rewrite append_nil, search_id_unfold.
      by rewrite (match_id_at_complete g token a Hg Ht).
    + rewrite append_cons, search_id_unfold.
      by destruct (match_id_at _).
Qed.

Lemma keep_chars_all (p : ascii → bool) (s : string) :
  all_chars p (keep_chars p s) = true.
Proof.
  induction s as [|c r IH]; simpl; [done|].
  destruct (p c) eqn:Hc; simpl; [by rewrite Hc|done].
Qed.

Lemma keep_chars_id (p : ascii → bool) (s : string) :
  all_chars p s = true → keep_chars p s = s.
Proof.
  induction s as [|c r IH]; simpl; [done|].
  intros [-> Hr]%andb_true_iff. by rewrite IH.
Qed.

Lemma keep_chars_app (p : ascii → bool) (a b : string) :
  keep_chars p (a +:+ b) = keep_chars p a +:+ keep_chars p b.
Proof.
  induction a as [|c r IH]; [by rewrite !append_nil|].
  rewrite append_cons. simpl. destruct (p c); [|done].
  by rewrite append_cons, IH.
Qed.

Lemma keep_chars_length (p : ascii → bool) (s : string) :
  String.length (keep_chars p s) ≤ String.length s.
Proof.
  induction s as [|c r IH]; simpl; [done|]. destruct (p c); simpl; lia.
Qed.

Lemma all_chars_contains (p : ascii → bool) (c : ascii) (s : string) :
  all_chars p s = true → p c = false → contains c s = false.
Proof.
  intros Hs Hc. induction s as [|d r IH]; simpl in *; [done|].
  apply andb_true_iff in Hs as [Hd Hr]. rewrite (IH Hr), orb_false_r.
  apply Ascii.eqb_neq. intros ->. congruence.
Qed.

(** X13. The name a file is saved under holds only letters, digits, dots,
    underscores, hyphens and spaces, so no slash: the file is an entry of
    the download directory itself.  Cleaning removes the other characters
    and changes nothing else: it leaves a name of allowed characters as it
    is, cleans a name part by part, and cleaning twice is cleaning once. *)
Theorem target_name_allowed (url_path : string → string) (hash : string → Z)
    (mapping : gmap string string) (u : string) :
  let name := target_name url_path hash mapping u in
  all_chars allowed_char name = true ∧ contains "/" name = false ∧
  (∀ s, all_chars allowed_char s = true ↔ clean_filename s = s) ∧
  (∀ s, clean_filename (clean_filename s) = clean_filename s) ∧
  (∀ a b, clean_filename (a +:+ b) = clean_filename a +:+ clean_filename b) ∧
  (∀ s, String.length (clean_filename s) ≤ String.length s).
Proof.
  intros name.
  assert (∀ s, all_chars allowed_char (clean_filename s) = true) as Hall
    by (intros s; apply (keep_chars_all allowed_char)).
  split_and!.
  - apply Hall.
  - by apply (all_chars_contains allowed_char); [apply Hall|].
  - intros s. split; [apply (keep_chars_id allowed_char)|].
    intros <-. apply Hall.
  - intros s. apply (keep_chars_id allowed_char), Hall.
  - intros a b. apply (keep_chars_app allowed_char).
  - intros s. apply keep_chars_length.
Qed.

Lemma read_urls_lines (ls : list string) :
  Forall (λ u, all_chars not_newline u = true) ls →
  read_urls (write_lines ls)
  = filter (λ u, u ≠ EmptyString) (strip <$> ls).
Proof.
  intros Hls. unfold read_urls. rewrite readlines_write_lines by done.
  clear Hls. induction ls as [|u ls IH]; [done|].
  rewrite !fmap_cons, !filter_cons, strip_snoc_space by done.
  case_decide; [|exact IH].
  rewrite fmap_cons, strip_snoc_space by done. f_equal. exact IH.
Qed.

Lemma urls_of_content (url_path : string → string) (file : option string) :
  unique_urls (process_url_file url_path file).1
  = remove_duplicates (read_urls (default EmptyString file)).
Proof. by destruct file. Qed.

(** X14. For a work file, existing or not, made of lines without line
    break inside, each ended by a line feed: the unique URLs are the
    lines with the white space around them removed, the blank ones
    dropped, each kept where it comes first; the mapping has them as its
    keys; and the file is rewritten with them, one per line. *)
Theorem entries_of_lines (url_path : string → string) (file : option string)
    (ls : list string) :
  default EmptyString file = write_lines ls →
  Forall (λ u, all_chars not_newline u = true) ls →
  let entries := filter (λ u, u ≠ EmptyString) (strip <$> ls) in
  let r := process_url_file url_path file in
  unique_urls r.1 = remove_duplicates entries ∧
  dom (filename_mapping r.1) = list_to_set entries ∧
  r.2 = (λ _, write_lines (remove_duplicates entries)) <$> file.
Proof.
  intros Hfile Hls entries r.
  assert (unique_urls r.1 = remove_duplicates entries) as Hurls.
  { subst r. by rewrite urls_of_content, Hfile, read_urls_lines. }
  split_and!; [done | |].
  - apply set_eq. intros u. rewrite elem_of_dom, elem_of_list_to_set.
    rewrite <- (remove_duplicates_elem_of entries), <- Hurls.
    subst r. destruct file as [content|]; simpl.
    + rewrite make_mapping_lookup. case_decide; [by split; eauto|].
      split; [by intros [? ?]|done].
    + rewrite lookup_empty. split; [by intros [? ?]|].
      by intros ?%not_elem_of_nil.
  - subst r. destruct file as [content|]; simpl; [|done].
    simpl in Hurls. by rewrite Hurls.
Qed.

Section UrlLib.
Variable url_path : string → string.

(** X10. The base name and the extension are the parts of the original
    file name before and after its last dot: a name without dot is its own
    base name, with no extension; the extension is empty too when nothing
    follows the last dot, and that dot is then in neither part. *)
Theorem name_parts (u : string) :
  let info := info_of url_path u in
  let name := original_filename info in
  (contains "." name = false →
   base_name info = name ∧ extension info = EmptyString) ∧
  (contains "." name = true →
   ∃ e, name = base_name info +:+ "." +:+ e ∧ contains "." e = false ∧
        extension info = if is_empty e then EmptyString else "." +:+ e) ∧
  (base_name info +:+ extension info = name ∨
   base_name info +:+ "." = name).
Proof.
  intros info name. subst info name. unfold info_of. simpl.
  destruct (contains "." (filename_of url_path u)) eqn:Hdot.
  - destruct (rsplit1 "." (filename_of url_path u)) as [[b e]|] eqn:E.
    + destruct (rsplit1_Some _ _ _ _ E) as [Hname He]. simpl.
      assert (∃ e', filename_of url_path u = b +:+ "." +:+ e' ∧
                    contains "." e' = false ∧
                    (if is_empty e then EmptyString else "." +:+ e)
                    = if is_empty e' then EmptyString else "." +:+ e')
        as Hparts by by exists e.
      split_and!; [done | done |]. rewrite Hname.
      destruct e; simpl; [by right | by left].
    + apply rsplit1_None in E. congruence.
  - simpl. split_and!; [done | done |]. left. apply append_empty_r.
Qed.

Lemma filter_eq_nil {A B} `{EqDecision B} (f : A → B) (l : list A) (b : B) :
  (∀ v, v ∈ l → f v ≠ b) → filter (λ y, y = b) (f <$> l) = [].
Proof.
  induction l as [|x l IH]; intros H; [done|]. simpl.
  rewrite filter_cons, decide_False.
  - apply IH. intros v Hv. apply H. by right.
  - apply H. by left.
Qed.

Lemma filter_eq_length_le_1 {A B} `{EqDecision B} (f : A → B) (l : list A)
    (u : A) :
  NoDup l → (∀ v, v ∈ l → f v = f u → v = u) →
  length (filter (λ y, y = f u) (f <$> l)) ≤ 1.
Proof.
  induction 1 as [|x l Hx Hl IH]; intros Hinj; [simpl; lia|]. simpl.
  rewrite filter_cons. case_decide as Hfx.
  - assert (x = u) as -> by (apply Hinj; [by left | done]).
    rewrite filter_eq_nil; [simpl; lia|].
    intros v Hv Hfv. apply Hx.
    by rewrite <- (Hinj v (list_elem_of_further _ _ _ Hv) Hfv).
  - apply IH. intros v Hv. apply Hinj. by right.
Qed.

(** X11. A unique URL whose original file name no other unique URL has is
    mapped to that name, unchanged; and when the name is not empty, the
    file is saved under that name with the characters not allowed
    removed. *)
Theorem lone_name_kept (hash : string → Z) (content u : string) :
  let data := (process_url_file url_path (Some content)).1 in
  u ∈ unique_urls data →
  (∀ v, v ∈ unique_urls data →
        filename_of url_path v = filename_of url_path u → v = u) →
  filename_mapping data !! u = Some (filename_of url_path u) ∧
  (filename_of url_path u ≠ EmptyString →
   target_name url_path hash (filename_mapping data) u
   = clean_filename (filename_of url_path u)).
Proof.
  intros data Hu Hlone.
  assert (filename_mapping data !! u = Some (filename_of url_path u)) as Hmap.
  { subst data. simpl in *. rewrite make_mapping_lookup, decide_True by done.
    unfold unique_filename. rewrite decide_False; [done|].
    rewrite count_of_Counter, <- list_fmap_compose.
    pose proof (filter_eq_length_le_1
                  (original_filename ∘ info_of url_path) _ u
                  (remove_duplicates_NoDup (read_urls content)) Hlone) as H.
    simpl in H. change (original_filename (info_of url_path u))
      with (filename_of url_path u).
    unfold filename_of at 1 in H. unfold filename_of at 1. lia. }
  split; [done|]. intros Hne. unfold target_name. rewrite Hmap.
  by rewrite (proj2 (is_empty_false _) Hne).
Qed.

(** X12. The keys of the mapping are the unique URLs.  A unique URL is
    mapped to its original file name or to base name, id and extension
    joined, and is saved under that name cleaned; the fallback name of
    lines 232-236 is used for it when the mapped name is empty, and for no
    other reason. *)
Theorem mapping_keys (hash : string → Z) (file : option string) :
  let data := (process_url_file url_path file).1 in
  (∀ u, is_Some (filename_mapping data !! u) ↔ u ∈ unique_urls data) ∧
  (∀ u, u ∈ unique_urls data →
     ∃ name,
       filename_mapping data !! u = Some name ∧
       (name = filename_of url_path u ∨
        name = base_name (info_of url_path u) +:+ file_id_of url_path u
               +:+ extension (info_of url_path u)) ∧
       target_name url_path hash (filename_mapping data) u
       = clean_filename
           (if is_empty name then fallback_name url_path hash u else name)).
Proof.
  intros data.
  assert (∀ u, filename_mapping data !! u
               = if decide (u ∈ unique_urls data)
                 then Some (unique_filename
                              (Counter (original_filename <$>
                                          (info_of url_path <$>
                                             unique_urls data)))
                              (info_of url_path u))
                 else None) as Hlookup.
  { intros u. subst data. destruct file as [content|]; simpl.
    - apply make_mapping_lookup.
    - by rewrite lookup_empty. }
  split.
  - intros u. rewrite Hlookup. case_decide; [by split; eauto|].
    split; [by intros [? ?]|done].
  - intros u Hu. rewrite Hlookup, decide_True by done.
    eexists. split; [done|]. split.
    + unfold unique_filename. case_decide; [by right | by left].
    + unfold target_name. rewrite Hlookup, decide_True by done.
      by destruct (is_empty _).
Qed.

End UrlLib.

Lemma name_parts_witness :
  let info := info_of urlparse_path archive_url in
  original_filename info = "archive.tar.gz" ∧
  base_name info = "archive.tar" ∧ extension info = ".gz".
Proof.
  destruct (name_parts urlparse_path archive_url) as (_ & H & _).
  destruct H as (e & H1 & H2 & H3); [by vm_compute|].
  by vm_compute.
Defined.

Lemma lone_name_kept_witness :
  let data :=
    (process_url_file urlparse_path (Some (write_lines [archive_url; u1]))).1 in
  filename_mapping data !! archive_url = Some "archive.tar.gz" ∧
  target_name urlparse_path no_hash (filename_mapping data) archive_url
  = "archive.tar.gz".
Proof.
  destruct (lone_name_kept urlparse_path no_hash
              (write_lines [archive_url; u1]) archive_url) as [H1 H2].
  - vm_compute. apply list_elem_of_here.
  - intros v Hv. vm_compute in Hv.
    apply elem_of_cons in Hv as [-> | Hv]; [done|].
    apply list_elem_of_singleton in Hv as ->. by vm_compute.
  - split; [exact H1|]. rewrite H2; by vm_compute.
Defined.

Lemma search_id_matches_witness :
  id_match "/files-pri/T1-F1/download/report.pdf" "F1" ∧
  is_Some (search_id "/files-pri/T1-F1/download/report.pdf").
Proof.
  destruct (search_id_matches "/files-pri/T1-F1/download/report.pdf")
    as [H1 H2].
  assert (id_match "/files-pri/T1-F1/download/report.pdf" "F1") as Hm
    by (apply H1; by vm_compute).
  split; [done | by apply (H2 "F1")].
Defined.

Lemma mapping_keys_witness :
  let data := (process_url_file urlparse_path (Some two_reports)).1 in
  filename_mapping data !! u1 = Some "report-F1.pdf" ∧
  target_name urlparse_path no_hash (filename_mapping data) u1
  = "report-F1.pdf".
Proof.
  destruct (mapping_keys urlparse_path no_hash (Some two_reports)) as [_ H].
  destruct (H u1) as (name & H1 & _ & H2).
  - vm_compute. apply list_elem_of_here.
  - assert (name = "report-F1.pdf") as -> by (vm_compute in H1; congruence).
    split; [exact H1 | exact H2].
Defined.

Lemma entries_of_lines_witness :
  let r := process_url_file urlparse_path
             (Some (write_lines [" " +:+ u1; EmptyString; u2; u1])) in
  unique_urls r.1 = [u1; u2] ∧ r.2 = Some (write_lines [u1; u2]).
Proof.
  destruct (entries_of_lines urlparse_path
              (Some (write_lines [" " +:+ u1; EmptyString; u2; u1]))
              [" " +:+ u1; EmptyString; u2; u1]) as (H1 & _ & H2).
  - reflexivity.
  - repeat constructor.
  - split; [exact H1 | exact H2].
Defined.

End NamingFacts.

(** ** Extraction in a batch, and [main] *)
Module MainFacts.
Import PyStr PyStrFacts FileFacts Namer NamerFacts Extractor Executor.
Import ExecutorFacts NamingFacts Scenario Main.

Lemma add_lines_app (file : option string) (a b : list string) :
  add_lines (add_lines file a) b = add_lines file (a ++ b).
Proof.
  destruct a as [|x a]; [done|]. destruct b as [|y b].
  - by rewrite app_nil_r.
  - change (add_lines (append_lines file (x :: a)) (y :: b)
            = append_lines file ((x :: a) ++ y :: b)).
    unfold add_lines, append_lines. simpl default.
    by rewrite write_lines_app, append_assoc.
Qed.

Lemma add_lines_default (file : option string) (urls : list string) :
  default EmptyString (add_lines file urls)
  = default EmptyString file +:+ write_lines urls.
Proof. destruct urls; [|done]. simpl. by rewrite append_empty_r. Qed.

Lemma counts_app (a b : list line) : counts (a ++ b) = counts a ++ counts b.
Proof. apply omap_app. Qed.

Lemma counts_messages (ms : list message) : counts (FromExtractor <$> ms) = [].
Proof. by induction ms. Qed.

Section Main.
Variable str_of : json → string.
Variable url_path : string → string.
Variable hash : string → Z.
Variable net : nat → string → response.

Local Abbreviation urls_in := (urls_in str_of).
Local Abbreviation parsed_urls := (parsed_urls str_of).
Local Abbreviation extract := (extract_urls_from_json str_of).
Local Abbreviation parse_phase := (parse_phase str_of).
Local Abbreviation main := (main str_of url_path hash net).

Lemma extract_output (file_path : string) (loaded : load_result)
    (file : option string) :
  output_file (extract file_path loaded file) = add_lines file (urls_in loaded)
  ∧ Extractor.returned (extract file_path loaded file)
    = length (urls_in loaded).
Proof.
  destruct loaded as [data| | |]; simpl; [|done..].
  rewrite length_fmap. by destruct (extracted_urls data).
Qed.

(** X15. The work file is created or changed by an extraction exactly
    when the extraction returns a count above zero; and two extractions
    one after the other leave the work file that one extraction of the
    URLs of both inputs leaves, their counts adding up: for two JSON
    lists, the extraction from the list of the records of both. *)
Theorem extraction_accumulates (path1 path2 : string)
    (loaded1 loaded2 : load_result) (file : option string) :
  let r1 := extract path1 loaded1 file in
  let r2 := extract path2 loaded2 (output_file r1) in
  (output_file r1 = file ↔ Extractor.returned r1 = 0) ∧
  output_file r2 = add_lines file (urls_in loaded1 ++ urls_in loaded2) ∧
  Extractor.returned r1 + Extractor.returned r2
  = length (urls_in loaded1 ++ urls_in loaded2) ∧
  (∀ items1 items2,
     loaded1 = Loaded (JArray items1) → loaded2 = Loaded (JArray items2) →
     let r := extract path1 (Loaded (JArray (items1 ++ items2))) file in
     output_file r2 = output_file r ∧
     Extractor.returned r1 + Extractor.returned r2 = Extractor.returned r).
Proof.
  intros r1 r2. subst r1 r2.
  destruct (extract_output path1 loaded1 file) as [Ho1 Hr1].
  destruct (extract_output path2 loaded2
              (output_file (extract path1 loaded1 file))) as [Ho2 Hr2].
  assert (output_file (extract path2 loaded2
                         (output_file (extract path1 loaded1 file)))
          = add_lines file (urls_in loaded1 ++ urls_in loaded2)) as Hboth
    by by rewrite Ho2, Ho1, add_lines_app.
  split_and!.
  - rewrite Ho1, Hr1. destruct (urls_in loaded1) as [|u urls] eqn:E.
    + done.
    + split; [|done]. destruct file as [content|]; [|done]. intros H.
      change (Some (content +:+ write_lines (u :: urls)) = Some content) in H.
      injection H as H.
      apply (f_equal String.length) in H. rewrite !append_length in H.
      simpl in H. lia.
  - done.
  - by rewrite Hr1, Hr2, length_app.
  - intros items1 items2 -> ->.
    destruct (extract_output path1 (Loaded (JArray (items1 ++ items2))) file)
      as [Ho Hr].
    cbv zeta. rewrite Hboth, Ho, Hr1, Hr2, Hr. simpl.
    unfold extracted_urls. by rewrite bind_app, fmap_app, length_app.
Qed.

Lemma parse_fold (json_files : list (string * load_result)) (d : disk)
    (total : nat) (out : list line) :
  ∃ d' out',
    foldl (parse_step str_of) (d, total, out) json_files
    = (d', total + length (json_files.*2 ≫= urls_in), out ++ out') ∧
    (∀ name,
       text_files d' !! name
       = if decide (name = default_url_file)
         then add_lines (text_files d !! default_url_file)
                (json_files.*2 ≫= urls_in)
         else text_files d !! name) ∧
    folders d' = folders d ∧
    counts out'
    = (λ jf, (length (urls_in jf.2), basename jf.1)) <$> json_files.
Proof.
  revert d total out.
  induction json_files as [|[file_path loaded] js IH]; intros d total out.
  - exists d, []. simpl. rewrite app_nil_r, Nat.add_0_r.
    split_and!; [done | | done..]. intros name. by case_decide; subst.
  - simpl foldl. unfold extract_default. simpl fst. simpl snd.
    destruct (extract_output file_path loaded
                (text_files d !! default_url_file)) as [Ho Hr].
    destruct (IH (put_text default_url_file
                    (output_file (extract file_path loaded
                                    (text_files d !! default_url_file))) d)
                 (total + Extractor.returned
                            (extract file_path loaded
                               (text_files d !! default_url_file)))
                 (out ++ (FromExtractor <$>
                            printed (extract file_path loaded
                                       (text_files d !! default_url_file)))
                      ++ [ExtractedFrom
                            (Extractor.returned
                               (extract file_path loaded
                                  (text_files d !! default_url_file)))
                            (basename file_path)]))
      as (d' & out' & Hfold & Hfiles & Hfolders & Hcounts).
    eexists d', _. split_and!.
    + rewrite Hfold. f_equal; [f_equal|].
      * rewrite Hr, fmap_cons, bind_cons, length_app. simpl. lia.
      * by rewrite <- app_assoc.
    + intros name. rewrite Hfiles. simpl text_files.
      case_decide as Hname.
      * rewrite lookup_partial_alter, decide_True by done.
        rewrite Ho, add_lines_app. by rewrite fmap_cons, bind_cons.
      * by rewrite lookup_partial_alter_ne.
    + done.
    + rewrite !counts_app, counts_messages, Hcounts, Hr. done.
Qed.

(** What the parse phase does to the directory. *)
Lemma parse_phase_files (input_path : string) (inp : input) (d : disk) :
  let d' := (parse_phase input_path inp d).1.2 in
  (∀ name,
     text_files d' !! name
     = if decide (name = default_url_file)
       then add_lines (text_files d !! default_url_file) (parsed_urls inp)
       else text_files d !! name) ∧
  folders d' = folders d.
Proof.
  destruct inp as [[|jf js]|loaded|]; simpl.
  - split; [|done]. intros name. by case_decide; subst.
  - destruct (parse_fold (jf :: js) d 0
                [Processing (length (jf :: js)) input_path])
      as (d' & out' & Hfold & Hfiles & Hfolders & _).
    simpl in Hfold. unfold parse_phase. simpl. by rewrite Hfold.
  - destruct (extract_output input_path loaded
                (text_files d !! default_url_file)) as [Ho _].
    split; [|done]. intros name. case_decide as Hname.
    + subst name. by rewrite lookup_partial_alter, decide_True.
    + by rewrite lookup_partial_alter_ne.
  - split; [|done]. intros name. by case_decide; subst.
Qed.

Lemma parse_phase_returns (input_path : string) (inp : input) (d : disk) :
  (parse_phase input_path inp d).1.1 = true ↔ inp = Directory [].
Proof.
  destruct inp as [[|jf js]|loaded|]; simpl; [done| |done..].
  unfold parse_phase. by destruct (foldl _ _ _) as [[? ?] ?].
Qed.

(** X16. The parse phase over a directory that has JSON files handles each
    of them, in the order of the listing, whatever happens with the
    others: it prints a count for each, the number of its URLs, zero for
    a file that cannot be read or parsed, and last their sum.  The phase
    appends the URLs of its inputs, in order, to [extracted_urls.txt],
    whatever [--url_file] is, and changes no other file. *)
Theorem parse_phase_batch (input_path : string) (inp : input) (d : disk) :
  let '(returns, d', out) := parse_phase input_path inp d in
  (∀ name,
     text_files d' !! name
     = if decide (name = default_url_file)
       then add_lines (text_files d !! default_url_file) (parsed_urls inp)
       else text_files d !! name) ∧
  folders d' = folders d ∧
  (returns = true ↔ inp = Directory []) ∧
  (∀ json_files,
     inp = Directory json_files → json_files ≠ [] →
     counts out
     = (λ jf, (length (urls_in jf.2), basename jf.1)) <$> json_files ∧
     last out = Some (TotalExtracted (sum_list (counts out).*1)) ∧
     sum_list (counts out).*1 = length (parsed_urls inp)).
Proof.
  pose proof (parse_phase_files input_path inp d) as [Hfiles Hfolders].
  pose proof (parse_phase_returns input_path inp d) as Hret.
  destruct (parse_phase input_path inp d) as [[returns d'] out] eqn:E.
  simpl in Hfiles, Hfolders, Hret. split_and!; [done..|].
  intros js -> Hjs. destruct js as [|jf js]; [done|].
  destruct (parse_fold (jf :: js) d 0
              [Processing (length (jf :: js)) input_path])
    as (d1 & out' & Hfold & _ & _ & Hcounts).
  unfold Main.parse_phase in E. rewrite Hfold in E.
  assert (out = ([Processing (length (jf :: js)) input_path] ++ out')
                ++ [TotalExtracted (0 + length ((jf :: js).*2 ≫= urls_in))])
    as -> by congruence.
  assert (counts (([Processing (length (jf :: js)) input_path] ++ out')
                  ++ [TotalExtracted
                        (0 + length ((jf :: js).*2 ≫= urls_in))])
          = (λ jf, (length (urls_in jf.2), basename jf.1)) <$> (jf :: js))
    as Hc by (by rewrite !counts_app, Hcounts, app_nil_r).
  assert (sum_list ((λ jf, (length (urls_in jf.2), basename jf.1)) <$>
                      (jf :: js)).*1
          = length ((jf :: js).*2 ≫= urls_in)) as Hsum.
  { generalize (jf :: js). intros l. induction l as [|x l IH]; [done|].
    rewrite !fmap_cons, bind_cons, length_app. simpl. by rewrite IH. }
  rewrite Hc. split_and!; [done | | done].
  rewrite last_snoc, Hsum. done.
Qed.


Lemma urls_of_file (file : option string) :
  urls_of url_path file
  = remove_duplicates (read_urls (default EmptyString file)).
Proof. apply urls_of_content. Qed.

(** X18. With [--parse] and [--download] and the default work file name,
    the work file being made of lines: every line of the work file and
    every URL extracted by this call, stripped and not blank, gets one
    outcome in the download phase, in the order of the file, each once. *)
Theorem extracted_urls_settled (a : args) (input_path : string) (inp : input)
    (d : disk) (old : list string) :
  parse a = true → download a = true → url_file a = default_url_file →
  inp ≠ Directory [] →
  default EmptyString (text_files d !! default_url_file) = write_lines old →
  Forall (λ u, all_chars not_newline u = true) (old ++ parsed_urls inp) →
  ∃ s, run (main a input_path inp d) = Some s ∧
       (outcomes (trace s)).*1
       = remove_duplicates
           (filter (λ u, u ≠ EmptyString)
                   (strip <$> (old ++ parsed_urls inp))).
Proof.
  intros Hparse Hdownload Hname Hinp Hold Hlines.
  unfold Main.main. rewrite Hparse, Hdownload.
  pose proof (parse_phase_files input_path inp d) as [Hfiles _].
  pose proof (parse_phase_returns input_path inp d) as Hret.
  destruct (parse_phase input_path inp d) as [[returns d1] out].
  simpl in Hfiles, Hret.
  destruct returns; [by destruct Hinp; apply Hret|]. simpl.
  eexists. split; [done|].
  pose proof (final_outcomes url_path hash net (text_files d1 !! url_file a)
                (default ∅ (folders d1 !! download_folder a))) as Hall.
  simpl in Hall. rewrite Hall, urls_of_file, Hname, Hfiles.
  rewrite decide_True by done.
  by rewrite add_lines_default, Hold, <- write_lines_app, read_urls_lines.
Qed.

End Main.


Lemma extracted_urls_settled_witness :
  ∃ s, run (main (λ _, EmptyString) urlparse_path no_hash always_ok
              (both_phases default_url_file) "a.json"
              (File (Loaded two_files)) nothing) = Some s ∧
       (outcomes (trace s)).*1 = [u1; u2].
Proof.
  destruct (extracted_urls_settled (λ _, EmptyString) urlparse_path no_hash
              always_ok (both_phases default_url_file) "a.json"
              (File (Loaded two_files)) nothing [])
    as (s & Hs & Hall); [done.. | by vm_compute | |].
  - vm_compute. repeat constructor.
  - exists s. split; [done|]. rewrite Hall. by vm_compute.
Defined.

Lemma parse_phase_batch_witness :
  let inp := Directory [("export/a.json", Loaded two_files);
                        ("export/b.json", JSONDecodeError)] in
  counts (parse_phase (λ _, EmptyString) "export" inp nothing).2
  = [(2, "a.json"); (0, "b.json")].
Proof.
  pose proof (parse_phase_batch (λ _, EmptyString) "export"
                (Directory [("export/a.json", Loaded two_files);
                            ("export/b.json", JSONDecodeError)]) nothing)
    as H.
  destruct (parse_phase _ _ _ _) as [[returns d'] out].
  destruct H as (_ & _ & _ & H).
  destruct (H _ eq_refl) as (-> & _); [done|]. by vm_compute.
Defined.

Lemma extraction_accumulates_witness :
  let r1 := extract_urls_from_json (λ _, EmptyString) "a.json"
              (Loaded (JArray [two_files])) None in
  let r2 := extract_urls_from_json (λ _, EmptyString) "b.json"
              (Loaded (JArray [two_files])) (output_file r1) in
  output_file r2 = Some (write_lines [u1; u2; u1; u2]) ∧
  Extractor.returned r1 + Extractor.returned r2 = 4.
Proof.
  destruct (extraction_accumulates (λ _, EmptyString) "a.json" "b.json"
              (Loaded (JArray [two_files])) (Loaded (JArray [two_files]))
              None) as (_ & _ & _ & H).
  cbv zeta. destruct (H [two_files] [two_files] eq_refl eq_refl) as [-> ->].
  by vm_compute.
Defined.

End MainFacts.
